(** * A worker-pool task scheduler with two layered deadlines

    Shallow embedding of [lesson-01/advanced/Task.go]: the [Task] interface with
    its two implementations ([SimpleTask], [LongRunningTask]), and the
    [TaskScheduler] with its [Run] / [worker] goroutines.

    Modelling conventions.
    - Instants and durations are integers counting nanoseconds, as
      [time.Duration] does; they are unbounded here.
    - A [context.Context] is represented by its deadline.  The [cancel]
      functions are all deferred to the return of the function that created the
      context, so inside [Execute] and [worker] a context is done exactly when
      its deadline has passed, and its [Err()] is then [DeadlineExceeded].
    - Inside [Execute] timing is nominal: [time.Sleep d] returns [d] after it
      was called and the other statements take no time.  What remains
      undetermined is made an explicit argument: the value drawn by
      [rand.Intn], and the case a [select] takes when two of its cases are
      ready at the same instant.
    - Goroutines interleave: a run of the scheduler is a sequence of events,
      each being one step of the main goroutine, one step of a worker, or the
      passing of time, which may come between any two steps.  The steps of a
      worker are: the reception of a task from the channel (or its return
      when the channel is closed and empty); the [select] on [ctx.Done()]
      that follows, with its return or the call of [Execute]; and the write of
      the result once [Execute] has returned.  The mutex [mu] makes that write
      one step.
    - [fmt.Printf] output is not modelled, except that the steps a
      [LongRunningTask] reports as done are counted. *)

From stdpp Require Import gmap strings list.
From Stdlib Require Import ZArith Lia.

Local Open Scope Z_scope.

(** ** [time] *)

Module time.
Definition Duration := Z.
Definition Nanosecond : Duration := 1.
Definition Millisecond : Duration := 1000000.
Definition Second : Duration := 1000 * Millisecond.
End time.

(** ** [context] *)

Module context.

(** The two errors of package [context]. *)
Inductive error := DeadlineExceeded | Canceled.

(** A context is its deadline; [Background()] has none. *)
Record Context := mkContext { Deadline : option Z }.

Definition Background : Context := {| Deadline := None |}.

(** [<-ctx.Done()] is ready at instant [now]. *)
Definition Done (ctx : Context) (now : Z) : bool :=
  match Deadline ctx with
  | Some d => d <=? now
  | None => false
  end.

(** [ctx.Err()] at instant [now]. *)
Definition Err (ctx : Context) (now : Z) : option error :=
  if Done ctx now then Some DeadlineExceeded else None.

(** [context.WithTimeout(parent, timeout)] called at instant [now]:
    [WithDeadline(parent, now+timeout)], which keeps the parent's deadline
    when that one is earlier. *)
Definition WithTimeout (parent : Context) (now : Z) (timeout : time.Duration) : Context :=
  let d := now + timeout in
  match Deadline parent with
  | Some cur => if cur <? d then parent else {| Deadline := Some d |}
  | None => {| Deadline := Some d |}
  end.

End context.

(** ** Errors returned by [Execute] *)

(** One constructor per place where [Execute] builds a non-nil error. *)
Inductive error :=
  (** [fmt.Errorf("任务 %s 超时: %v", t.ID, taskCtx.Err())] *)
  | ErrTimeout (id : string) (cause : option context.error)
  (** [taskCtx.Err()], sent on [done] by the goroutine of [SimpleTask.Execute] *)
  | ErrContext (cause : context.error)
  (** [fmt.Errorf("任务 %s 在第 %d 步被取消: %v", t.ID, i, taskCtx.Err())] *)
  | ErrCancelledAtStep (id : string) (i : Z) (cause : option context.error).

(** A Go [error] value: [None] is [nil]. *)
Definition Outcome := option error.

#[global] Instance context_error_eq_dec : EqDecision context.error.
Proof. solve_decision. Defined.
#[global] Instance error_eq_dec : EqDecision error.
Proof. solve_decision. Defined.

(** What is left open by the nominal timing of one [SimpleTask.Execute]. *)
Record oracle := mkOracle {
  intn : Z;          (** the value [rand.Intn(100)] is computed from *)
  prefer_done : bool (** [select] takes [err := <-done] when both cases are ready *)
}.

(** ** [SimpleTask] *)

Module SimpleTask.

Record t := mk { ID : string; Timeout : time.Duration }.

(** [time.Duration(rand.Intn(100)+300) * time.Millisecond] *)
Definition duration (o : oracle) : time.Duration :=
  (intn o mod 100 + 300) * time.Millisecond.

(** The instant at which the goroutine started by [Execute] has slept. *)
Definition woke (now : Z) (o : oracle) : Z := now + duration o.

(** What that goroutine sends on [done]: [taskCtx.Err()] when [taskCtx] is
    done at that instant, [nil] otherwise. *)
Definition sent (taskCtx : context.Context) (now : Z) (o : oracle) : Outcome :=
  if context.Done taskCtx (woke now o)
  then ErrContext <$> context.Err taskCtx (woke now o)
  else None.

(** The first instant, from [now] on, at which a case of the final [select]
    is ready: [taskCtx] is done or [done] holds a value. *)
Definition selected (taskCtx : context.Context) (now : Z) (o : oracle) : Z :=
  match context.Deadline taskCtx with
  | Some d => Z.max now (Z.min d (woke now o))
  | None => woke now o
  end.

(** [taskCtx, cancel := context.WithTimeout(ctx, t.Timeout)] *)
Definition taskCtx (tk : t) (ctx : context.Context) (now : Z) : context.Context :=
  context.WithTimeout ctx now (Timeout tk).

(** [Execute(ctx)] called at instant [now]: the error returned and the
    instant of the return. *)
Definition Execute (tk : t) (ctx : context.Context) (now : Z) (o : oracle) : Outcome * Z :=
  let taskCtx := taskCtx tk ctx now in
  let at_ := selected taskCtx now o in
  if context.Done taskCtx at_ then
    if (woke now o <=? at_) && prefer_done o
    then (sent taskCtx now o, at_)
    else (Some (ErrTimeout (ID tk) (context.Err taskCtx at_)), at_)
  else (sent taskCtx now o, at_).

(** The error of the case [<-taskCtx.Done()], the context being done
    because its deadline has passed. *)
Definition timed_out (tk : t) : Outcome :=
  Some (ErrTimeout (ID tk) (Some context.DeadlineExceeded)).

Definition GetID (tk : t) : string := ID tk.

End SimpleTask.

Definition NewSimpleTask (id : string) (timeout : time.Duration) : SimpleTask.t :=
  SimpleTask.mk id timeout.

(** ** [LongRunningTask] *)

Module LongRunningTask.

Record t := mk { ID : string; Count : Z; Timeout : time.Duration }.

(** Result of a run of the loop: the error, the instant of the return and
    the number of steps reported as done ([进度: i+1/Count]). *)
Record result := mkResult { err : Outcome; finished : Z; progress : Z }.

(** The loop [for i := 0; i < t.Count; i++], entered with [left] iterations to
    go, at index [i] and instant [now]. *)
Fixpoint loop (tk : t) (taskCtx : context.Context) (left : nat) (i : Z) (now : Z) : result :=
  match left with
  | O => mkResult None now i
  | S left' =>
      if context.Done taskCtx now
      then mkResult (Some (ErrCancelledAtStep (ID tk) i (context.Err taskCtx now))) now i
      else loop tk taskCtx left' (i + 1) (now + 100 * time.Millisecond)
  end.

Definition run (tk : t) (ctx : context.Context) (now : Z) : result :=
  let taskCtx := context.WithTimeout ctx now (Timeout tk) in
  loop tk taskCtx (Z.to_nat (Count tk)) 0 now.

Definition Execute (tk : t) (ctx : context.Context) (now : Z) : Outcome * Z :=
  let r := run tk ctx now in (err r, finished r).

Definition GetID (tk : t) : string := ID tk.

(** The instant of the poll of [taskCtx.Done()] that comes [j] steps after
    one made at instant [now]. *)
Definition poll (now : Z) (j : nat) : Z := now + Z.of_nat j * (100 * time.Millisecond).

End LongRunningTask.

Definition NewLongRunningTask (id : string) (count : Z) (timeout : time.Duration) : LongRunningTask.t :=
  LongRunningTask.mk id count timeout.

(** ** The [Task] interface *)

Inductive Task :=
  | Simple (tk : SimpleTask.t)
  | LongRunning (tk : LongRunningTask.t).

Definition Execute (task : Task) (ctx : context.Context) (now : Z) (o : oracle) : Outcome * Z :=
  match task with
  | Simple tk => SimpleTask.Execute tk ctx now o
  | LongRunning tk => LongRunningTask.Execute tk ctx now
  end.

Definition GetID (task : Task) : string :=
  match task with
  | Simple tk => SimpleTask.GetID tk
  | LongRunning tk => LongRunningTask.GetID tk
  end.

(** ** [TaskScheduler] *)

(** The mutex [mu] has no field here: what it protects is done in one step. *)
Record TaskScheduler := mkTaskScheduler {
  tasks : list Task;
  wg : Z;                         (** counter of the [sync.WaitGroup] *)
  results : gmap string Outcome;
  timeout : time.Duration;
  workerCount : Z
}.

Definition NewTaskScheduler (workerCount : Z) (timeout : time.Duration) : TaskScheduler :=
  {| tasks := []; wg := 0; results := ∅; timeout := timeout; workerCount := workerCount |}.

Definition AddTask (s : TaskScheduler) (task : Task) : TaskScheduler :=
  {| tasks := tasks s ++ [task]; wg := wg s; results := results s;
     timeout := timeout s; workerCount := workerCount s |}.

(** The scheduler after [AddTask] was called for each task of a batch. *)
Definition submit (s : TaskScheduler) (batch : list Task) : TaskScheduler :=
  foldl AddTask s batch.

(** *** A run, as a transition system *)

(** Where a worker goroutine stands. *)
Inductive goroutine :=
  | AtRange     (** at [for task := range taskChan] *)
  | AtSelect (idx : nat) (task : Task)
                (** holding item [idx], at the [select] on [ctx.Done()] *)
  | InExecute (idx : nat) (task : Task) (err : Outcome) (ret : Z)
                (** inside [task.Execute(ctx)], which returns [err] at instant [ret] *)
  | Exited.

(** Where the caller of [Run] stands. *)
Inductive caller :=
  | Spawning (i : Z)  (** at the test [i < s.workerCount] of the loop starting workers *)
  | Waiting           (** at [s.wg.Wait()] *)
  | Returned.

(** What a run does, in the order it does it.  Queue items are named by their
    position in [s.tasks]. *)
Inductive obs :=
  | ODequeue (w idx : nat) (at_ : Z)  (** worker [w] received item [idx] at instant [at_] *)
  | OExecute (w idx : nat)            (** worker [w] called [Execute] on item [idx] *)
  | ORecord (w idx : nat) (id : string) (err : Outcome)  (** [s.results[id] = err] *)
  | OExit (w : nat)                   (** worker [w] returned *)
  | OReturn.                          (** [Run] returned *)

#[global] Instance oracle_eq_dec : EqDecision oracle.
Proof. solve_decision. Defined.
#[global] Instance obs_eq_dec : EqDecision obs.
Proof. solve_decision. Defined.
#[global] Instance caller_eq_dec : EqDecision caller.
Proof. solve_decision. Defined.

Record state := mkState {
  sch : TaskScheduler;
  taskChan : list (nat * Task);  (** what is left in the closed channel *)
  ctx : context.Context;         (** the context of the run *)
  now : Z;
  pc : caller;
  pool : list goroutine;         (** the workers started so far *)
  trace : list obs
}.

(** The channel as [Run] fills it: every task of [s.tasks], in order, each
    with its position. *)
Definition queue (ts : list Task) : list (nat * Task) :=
  imap (λ idx task, (idx, task)) ts.

(** The state after the first statements of [Run], called at instant [t0]: the
    channel is filled with [s.tasks] and closed, and the context is made. *)
Definition Run_begin (s : TaskScheduler) (t0 : Z) : state :=
  {| sch := s;
     taskChan := queue (tasks s);
     ctx := context.WithTimeout context.Background t0 (timeout s);
     now := t0;
     pc := Spawning 0;
     pool := [];
     trace := [] |}.

Definition set_wg (n : Z) (s : TaskScheduler) : TaskScheduler :=
  {| tasks := tasks s; wg := n; results := results s;
     timeout := timeout s; workerCount := workerCount s |}.

Definition set_result (id : string) (err : Outcome) (s : TaskScheduler) : TaskScheduler :=
  {| tasks := tasks s; wg := wg s; results := <[id := err]> (results s);
     timeout := timeout s; workerCount := workerCount s |}.

(** [s.wg.Add(1); go s.worker(ctx, i, taskChan)], and [i++]. *)
Definition spawn (i : Z) (s : state) : state :=
  {| sch := set_wg (wg (sch s) + 1) (sch s); taskChan := taskChan s; ctx := ctx s;
     now := now s; pc := Spawning (i + 1); pool := pool s ++ [AtRange];
     trace := trace s |}.

(** The loop starting the workers ends. *)
Definition spawned (s : state) : state :=
  {| sch := sch s; taskChan := taskChan s; ctx := ctx s; now := now s;
     pc := Waiting; pool := pool s; trace := trace s |}.

(** [s.wg.Wait()] lets the caller through, and [Run] returns [s.results]. *)
Definition join (s : state) : state :=
  {| sch := sch s; taskChan := taskChan s; ctx := ctx s; now := now s;
     pc := Returned; pool := pool s; trace := trace s ++ [OReturn] |}.

(** Worker [w] returns: the deferred [s.wg.Done()]. *)
Definition exit (w : nat) (s : state) : state :=
  {| sch := set_wg (wg (sch s) - 1) (sch s); taskChan := taskChan s; ctx := ctx s;
     now := now s; pc := pc s; pool := <[w := Exited]> (pool s);
     trace := trace s ++ [OExit w] |}.

(** Worker [w] receives item [idx] from the channel, [rest] being left in
    it. *)
Definition receive (w idx : nat) (task : Task) (rest : list (nat * Task)) (s : state) : state :=
  {| sch := sch s; taskChan := rest; ctx := ctx s; now := now s; pc := pc s;
     pool := <[w := AtSelect idx task]> (pool s);
     trace := trace s ++ [ODequeue w idx (now s)] |}.

(** Worker [w], holding item [idx], takes the [default] case of its [select]
    and calls [task.Execute(ctx)], which will return [err] at instant [ret]. *)
Definition call (w idx : nat) (task : Task) (err : Outcome) (ret : Z) (s : state) : state :=
  {| sch := sch s; taskChan := taskChan s; ctx := ctx s; now := now s; pc := pc s;
     pool := <[w := InExecute idx task err ret]> (pool s);
     trace := trace s ++ [OExecute w idx] |}.

(** Worker [w] writes [s.results[task.GetID()] = err] under the lock, and goes
    back to the head of its loop. *)
Definition record (w idx : nat) (task : Task) (err : Outcome) (s : state) : state :=
  {| sch := set_result (GetID task) err (sch s); taskChan := taskChan s;
     ctx := ctx s; now := now s; pc := pc s; pool := <[w := AtRange]> (pool s);
     trace := trace s ++ [ORecord w idx (GetID task) err] |}.

(** Time passes. *)
Definition advance (d : Z) (s : state) : state :=
  {| sch := sch s; taskChan := taskChan s; ctx := ctx s; now := now s + d;
     pc := pc s; pool := pool s; trace := trace s |}.

(** One step of the caller of [Run]. *)
Definition Run_step (s : state) : option state :=
  match pc s with
  | Spawning i => if i <? workerCount (sch s) then Some (spawn i s) else Some (spawned s)
  | Waiting => if wg (sch s) =? 0 then Some (join s) else None
  | Returned => None
  end.

(** One step of worker [w].  At the head of its loop it receives a task, or
    returns when the channel is closed and empty; holding a task, it looks
    at [ctx.Done()] and returns or calls [Execute]; inside [Execute] its next
    step is the write of the result, once [Execute] has returned. *)
Definition worker (w : nat) (o : oracle) (s : state) : option state :=
  match pool s !! w with
  | Some AtRange =>
      match taskChan s with
      | [] => Some (exit w s)
      | (idx, task) :: rest => Some (receive w idx task rest s)
      end
  | Some (AtSelect idx task) =>
      if context.Done (ctx s) (now s)
      then Some (exit w s)
      else Some (call w idx task (Execute task (ctx s) (now s) o).1
                   (Execute task (ctx s) (now s) o).2 s)
  | Some (InExecute idx task err ret) =>
      if ret <=? now s then Some (record w idx task err s) else None
  | Some Exited | None => None
  end.

Definition tick (d : Z) (s : state) : option state :=
  if 0 <? d then Some (advance d s) else None.

Inductive event :=
  | Main
  | Worker (w : nat) (o : oracle)
  | Tick (d : Z).

Definition step (e : event) (s : state) : option state :=
  match e with
  | Main => Run_step s
  | Worker w o => worker w o s
  | Tick d => tick d s
  end.

(** The same steps, as a relation. *)
Inductive transition : event → state → state → Prop :=
  | t_spawn s i :
      pc s = Spawning i → i < workerCount (sch s) →
      transition Main s (spawn i s)
  | t_spawned s i :
      pc s = Spawning i → workerCount (sch s) ≤ i →
      transition Main s (spawned s)
  | t_join s :
      pc s = Waiting → wg (sch s) = 0 →
      transition Main s (join s)
  | t_drained w o s :
      pool s !! w = Some AtRange → taskChan s = [] →
      transition (Worker w o) s (exit w s)
  | t_receive w o s idx task rest :
      pool s !! w = Some AtRange → taskChan s = (idx, task) :: rest →
      transition (Worker w o) s (receive w idx task rest s)
  | t_abandon w o s idx task :
      pool s !! w = Some (AtSelect idx task) →
      context.Done (ctx s) (now s) = true →
      transition (Worker w o) s (exit w s)
  | t_call w o s idx task :
      pool s !! w = Some (AtSelect idx task) →
      context.Done (ctx s) (now s) = false →
      transition (Worker w o) s
        (call w idx task (Execute task (ctx s) (now s) o).1
           (Execute task (ctx s) (now s) o).2 s)
  | t_record w o s idx task err ret :
      pool s !! w = Some (InExecute idx task err ret) → ret ≤ now s →
      transition (Worker w o) s (record w idx task err s)
  | t_tick d s :
      0 < d →
      transition (Tick d) s (advance d s).

(** A schedule is a list of events; it is refused as soon as one of them is
    not enabled. *)
Fixpoint exec (es : list event) (s : state) : option state :=
  match es with
  | [] => Some s
  | e :: es' => step e s ≫= exec es'
  end.

(** The states a call of [Run] at instant [t0] can reach. *)
Definition reachable (s0 : TaskScheduler) (t0 : Z) (s : state) : Prop :=
  ∃ es, exec es (Run_begin s0 t0) = Some s.

(** *** A run to its end *)

(** A scheduling policy settles what the transition system leaves open: which
    goroutine goes next ([0] is the caller of [Run], [S w] is worker [w]) and
    what each step draws.  Time passes only when no goroutine can go, and then
    up to the first return of an [Execute]. *)
Record policy := mkPolicy {
  choose : nat → nat;
  draw : nat → oracle
}.

Definition attempt (o : oracle) (s : state) (c : nat) : option state :=
  match c with
  | O => step Main s
  | S w => step (Worker w o) s
  end.

Fixpoint first_enabled (o : oracle) (s : state) (cs : list nat) : option state :=
  match cs with
  | [] => None
  | c :: cs' =>
      match attempt o s c with
      | Some s' => Some s'
      | None => first_enabled o s cs'
      end
  end.

(** The earliest instant at which an [Execute] under way returns. *)
Fixpoint next_return (gs : list goroutine) : option Z :=
  match gs with
  | [] => None
  | InExecute _ _ _ ret :: gs' =>
      match next_return gs' with
      | Some r => Some (Z.min ret r)
      | None => Some ret
      end
  | _ :: gs' => next_return gs'
  end.

Definition next (p : policy) (k : nat) (s : state) : option state :=
  match attempt (draw p k) s (choose p k) with
  | Some s' => Some s'
  | None =>
      match first_enabled (draw p k) s (seq 0 (S (length (pool s)))) with
      | Some s' => Some s'
      | None => next_return (pool s) ≫= λ r, step (Tick (r - now s)) s
      end
  end.

Fixpoint drive (p : policy) (fuel k : nat) (s : state) : option state :=
  match pc s with
  | Returned => Some s
  | _ =>
      match fuel with
      | O => None
      | S fuel' => next p k s ≫= drive p fuel' (S k)
      end
  end.

(** Steps that are enough for a run to return. *)
Definition budget (s : TaskScheduler) : nat :=
  (4 * length (tasks s) + 3 * Z.to_nat (workerCount s) + 2)%nat.

(** [Run()] called at instant [t0] under policy [p]: the state in which it
    returns.  The map it returns is [results] of the scheduler in that state. *)
Definition Run (p : policy) (s : TaskScheduler) (t0 : Z) : option state :=
  drive p (budget s) 0 (Run_begin s t0).

(** *** The steps a run has left *)

(** A bound on the steps a goroutine has left before it next receives: a
    worker holding a task calls [Execute] on it, and one inside [Execute]
    waits for the return, then writes. *)
Definition goroutine_weight (now : Z) (g : goroutine) : nat :=
  match g with
  | AtRange => 1%nat
  | AtSelect _ _ => 4%nat
  | InExecute _ _ _ ret => if ret <=? now then 2%nat else 3%nat
  | Exited => O
  end.

Fixpoint load (now : Z) (gs : list goroutine) : nat :=
  match gs with
  | [] => O
  | g :: gs' => (goroutine_weight now g + load now gs')%nat
  end.

Definition caller_weight (workerCount : Z) (c : caller) : nat :=
  match c with
  | Spawning i => (3 * Z.to_nat (workerCount - i) + 2)%nat
  | Waiting => 1%nat
  | Returned => O
  end.

(** A bound on the steps of the goroutines that a run has left. *)
Definition measure (s : state) : nat :=
  (caller_weight (workerCount (sch s)) (pc s) + 4 * length (taskChan s)
   + load (now s) (pool s))%nat.

(** No worker of the pool can make a step at instant [t]. *)
Definition all_blocked (t : Z) (gs : list goroutine) : Prop :=
  ∀ (w : nat) (g : goroutine), gs !! w = Some g →
    match g with
    | AtRange | AtSelect _ _ => False
    | InExecute _ _ _ ret => t < ret
    | Exited => True
    end.

(** *** Reading a trace *)

(** The queue items received, in the order of their reception. *)
Definition dequeued (tr : list obs) : list nat :=
  omap (λ o, match o with ODequeue _ idx _ => Some idx | _ => None end) tr.

(** The queue items received while context [c] was not done (when
    [late] is [false]), or while it was (when [late] is [true]). *)
Definition dequeued_when (late : bool) (c : context.Context) (tr : list obs) : list nat :=
  omap (λ o, match o with
             | ODequeue _ idx at_ =>
                 if bool_decide (context.Done c at_ = late) then Some idx else None
             | _ => None
             end) tr.

(** The queue items [Execute] was called on. *)
Definition executed (tr : list obs) : list nat :=
  omap (λ o, match o with OExecute _ idx => Some idx | _ => None end) tr.

(** The queue items whose result was written. *)
Definition recorded (tr : list obs) : list nat :=
  omap (λ o, match o with ORecord _ idx _ _ => Some idx | _ => None end) tr.

(** The writes to [s.results], in the order they were made. *)
Definition writes (tr : list obs) : list (string * Outcome) :=
  omap (λ o, match o with ORecord _ _ id err => Some (id, err) | _ => None end) tr.

(** The workers that have returned. *)
Definition exited (tr : list obs) : list nat :=
  omap (λ o, match o with OExit w => Some w | _ => None end) tr.

(** A map after a sequence of writes. *)
Definition apply_writes (m : gmap string Outcome) (ws : list (string * Outcome)) :
    gmap string Outcome :=
  foldl (λ m w, <[w.1 := w.2]> m) m ws.

(** The queue items whose [Execute] is under way. *)
Definition in_flight (gs : list goroutine) : list nat :=
  omap (λ g, match g with InExecute idx _ _ _ => Some idx | _ => None end) gs.

(** The queue items that workers hold at their [select], received and not
    yet looked at. *)
Definition held (gs : list goroutine) : list nat :=
  omap (λ g, match g with AtSelect idx _ => Some idx | _ => None end) gs.

(** Whether a worker has not returned, as a number. *)
Definition alive (g : goroutine) : nat :=
  match g with Exited => O | _ => 1%nat end.

(** The number of workers that have not returned. *)
Fixpoint live (gs : list goroutine) : nat :=
  match gs with
  | [] => O
  | Exited :: gs' => live gs'
  | _ :: gs' => S (live gs')
  end.

(** Error [err] is what some [Execute] of item [idx] of the batch of [s0],
    whose identifier is [id], returned in the run begun at instant [t0], the
    call being made while the context of the run was not done. *)
Definition from_Execute (s0 : TaskScheduler) (t0 : Z) (idx : nat) (id : string)
    (err : Outcome) : Prop :=
  ∃ (task : Task) (t : Z) (o : oracle),
    tasks s0 !! idx = Some task ∧ id = GetID task
    ∧ err = (Execute task (context.WithTimeout context.Background t0 (timeout s0)) t o).1
    ∧ context.Done (context.WithTimeout context.Background t0 (timeout s0)) t = false.

(** The workers are on time at their [select]: a task that a worker holds
    was received at the present instant. *)
Definition on_time (s : state) : Prop :=
  ∀ (w idx : nat) (task : Task),
    pool s !! w = Some (AtSelect idx task) → ODequeue w idx (now s) ∈ trace s.

(** The tasks received while the context of the run was not done have been
    executed or are held by the worker that received them. *)
Definition in_time_kept (s : state) : Prop :=
  ∀ (w idx : nat) (at_ : Z),
    ODequeue w idx at_ ∈ trace s → context.Done (ctx s) at_ = false →
    (∃ w', OExecute w' idx ∈ trace s) ∨ (∃ task, pool s !! w = Some (AtSelect idx task)).

(** *** Runs used as examples *)

(** The state a schedule leads to. *)
Definition final (es : list event) (s : state) : state := default s (exec es s).

(** Every draw is [0], and a [select] with two cases ready takes the value
    on [done]. *)
Definition first : oracle := mkOracle 0 true.

(** The caller goes whenever it can, then the workers in their order. *)
Definition in_order : policy := mkPolicy (λ _, O) (λ _, first).

(** One worker, a budget of one second, two tasks of 300ms each. *)
Definition two_tasks : list Task :=
  [Simple (NewSimpleTask "task-1" (500 * time.Millisecond));
   Simple (NewSimpleTask "task-2" (500 * time.Millisecond))].

Definition one_worker : TaskScheduler :=
  submit (NewTaskScheduler 1 (1 * time.Second)) two_tasks.

Definition one_worker_schedule : list event :=
  [Main; Main;
   Worker 0 first; Worker 0 first; Tick (300 * time.Millisecond); Worker 0 first;
   Worker 0 first; Worker 0 first; Tick (300 * time.Millisecond); Worker 0 first;
   Worker 0 first; Main].

(** Two workers, a budget of one second, two tasks under one identifier: the
    second task times out after 100ms, the first one ends well after 300ms. *)
Definition same_id : list Task :=
  [Simple (NewSimpleTask "job" (500 * time.Millisecond));
   Simple (NewSimpleTask "job" (100 * time.Millisecond))].

Definition two_workers : TaskScheduler :=
  submit (NewTaskScheduler 2 (1 * time.Second)) same_id.

Definition two_workers_schedule : list event :=
  [Main; Main; Main;
   Worker 0 first; Worker 0 first; Worker 1 first; Worker 1 first;
   Tick (100 * time.Millisecond); Worker 1 first;
   Tick (200 * time.Millisecond); Worker 0 first;
   Worker 0 first; Worker 1 first; Main].

(** The same run, except that the worker whose [Execute] returned after
    100ms comes to write its result only after the other one, whose [Execute]
    returned after 300ms, has written its own. *)
Definition late_writer_schedule : list event :=
  [Main; Main; Main;
   Worker 0 first; Worker 0 first; Worker 1 first; Worker 1 first;
   Tick (300 * time.Millisecond); Worker 0 first; Worker 1 first;
   Worker 0 first; Worker 1 first; Main].

(** One worker, a budget of 100ms, three tasks: the first one times out with
    the run, after which the worker is back at the head of its loop with two
    tasks left in the channel. *)
Definition three_tasks : list Task :=
  [Simple (NewSimpleTask "task-1" (500 * time.Millisecond));
   Simple (NewSimpleTask "task-2" (500 * time.Millisecond));
   Simple (NewSimpleTask "task-3" (500 * time.Millisecond))].

Definition short_budget : TaskScheduler :=
  submit (NewTaskScheduler 1 (100 * time.Millisecond)) three_tasks.

Definition short_budget_schedule : list event :=
  [Main; Main; Worker 0 first; Worker 0 first; Tick (100 * time.Millisecond);
   Worker 0 first].

Definition after_deadline : state :=
  final short_budget_schedule (Run_begin short_budget 0).

(** One worker, a budget of 100ms, one task: the worker receives the task one
    nanosecond before the budget runs out, and comes to its [select] one
    nanosecond after. *)
Definition one_task : list Task :=
  [Simple (NewSimpleTask "task-1" (500 * time.Millisecond))].

Definition slow_worker : TaskScheduler :=
  submit (NewTaskScheduler 1 (100 * time.Millisecond)) one_task.

Definition slow_worker_schedule : list event :=
  [Main; Main; Tick (100 * time.Millisecond - time.Nanosecond); Worker 0 first;
   Tick (2 * time.Nanosecond); Worker 0 first; Main].

(** In the run of [s0] begun at instant [t0], [Execute] was called on item
    [idx] of the batch, which is [task], at an instant of the run at which its
    context was not done, and that call returns [err] at instant [ret]. *)
Definition Execute_call (s0 : TaskScheduler) (t0 : Z) (idx : nat) (task : Task)
    (err : Outcome) (ret : Z) : Prop :=
  ∃ (t : Z) (o : oracle),
    tasks s0 !! idx = Some task ∧ t0 ≤ t
    ∧ context.Done (context.WithTimeout context.Background t0 (timeout s0)) t = false
    ∧ Execute task (context.WithTimeout context.Background t0 (timeout s0)) t o = (err, ret).

(** *** [main] *)

(** The scheduler [main] builds before it calls [Run]. *)
Definition main_scheduler : TaskScheduler :=
  let scheduler := NewTaskScheduler 3 (4 * time.Second) in
  let scheduler := AddTask scheduler (Simple (NewSimpleTask "task-1" (2 * time.Second))) in
  let scheduler :=
    AddTask scheduler (LongRunning (NewLongRunningTask "long-task-1" 50 (5 * time.Second))) in
  let scheduler :=
    AddTask scheduler (LongRunning (NewLongRunningTask "long-task-1" 40 (4 * time.Second))) in
  let scheduler :=
    AddTask scheduler (LongRunning (NewLongRunningTask "long-task-2" 20 (1 * time.Second))) in
  AddTask scheduler (Simple (NewSimpleTask "task-3" (500 * time.Millisecond))).


(** A scheduler without tasks, and a schedule of its run. *)
Definition idle : TaskScheduler := NewTaskScheduler 2 (1 * time.Second).

Definition idle_schedule : list event :=
  [Main; Main; Worker 0 first; Main; Worker 1 first; Main].

(** ** Which budget ended an execution *)

(** The two budgets an execution runs under: the one of the task
    ([Timeout]) and the one of the run (the context handed to [Execute]). *)
Inductive expiry := OwnBudget | GlobalBudget | NoExpiry.

Definition Timeout_of (task : Task) : time.Duration :=
  match task with
  | Simple tk => SimpleTask.Timeout tk
  | LongRunning tk => LongRunningTask.Timeout tk
  end.

(** The budget that has run out when an [Execute] called at instant [now]
    under [ctx] returns at instant [ret]; the run's, if both have. *)
Definition fired (task : Task) (ctx : context.Context) (now ret : Z) : expiry :=
  if context.Done ctx ret then GlobalBudget
  else if now + Timeout_of task <=? ret then OwnBudget
  else NoExpiry.

(** * Properties of [Execute] *)

Section context_facts.

Lemma Done_true (c : context.Context) (t : Z) :
  context.Done c t = true ↔ ∃ d, context.Deadline c = Some d ∧ d ≤ t.
Proof.
  unfold context.Done. destruct (context.Deadline c) as [d|].
  - rewrite Z.leb_le. split; [eauto | intros (? & [= <-] & ?); done].
  - split; [done | intros (? & ? & _); done].
Qed.

Lemma Done_false (c : context.Context) (t : Z) :
  context.Done c t = false ↔ ∀ d, context.Deadline c = Some d → t < d.
Proof.
  unfold context.Done. destruct (context.Deadline c) as [d|].
  - rewrite Z.leb_gt. split; [intros ? ? [= <-]; done | eauto].
  - split; [done | done].
Qed.

(** A context that is done stays done. *)
Lemma Done_mono (c : context.Context) (t t' : Z) :
  t ≤ t' → context.Done c t = true → context.Done c t' = true.
Proof. rewrite !Done_true. intros ? (d & ? & ?). exists d. split; [done | lia]. Qed.

Lemma Err_Done (c : context.Context) (t : Z) :
  context.Done c t = true → context.Err c t = Some context.DeadlineExceeded.
Proof. unfold context.Err. by intros ->. Qed.

(** The deadline of a derived context: the earlier of the two. *)
Lemma WithTimeout_Deadline (c : context.Context) (t d : Z) :
  context.Deadline (context.WithTimeout c t d) =
    Some (match context.Deadline c with
          | Some cur => Z.min cur (t + d)
          | None => t + d
          end).
Proof.
  unfold context.WithTimeout. destruct (context.Deadline c) as [cur|] eqn:E; [|done].
  destruct (Z.ltb_spec cur (t + d)); simpl; [rewrite E|]; f_equal; lia.
Qed.

(** A derived context is done when its parent is, or its own time is up. *)
Lemma WithTimeout_Done (c : context.Context) (t d t' : Z) :
  context.Done (context.WithTimeout c t d) t' = context.Done c t' || (t + d <=? t').
Proof.
  unfold context.Done at 1. rewrite WithTimeout_Deadline.
  unfold context.Done. destruct (context.Deadline c) as [cur|]; simpl; [|done].
  destruct (Z.leb_spec cur t'), (Z.leb_spec (t + d) t'), (Z.leb_spec (Z.min cur (t + d)) t');
    simpl; try done; lia.
Qed.

End context_facts.

Lemma duration_range (o : oracle) :
  300 * time.Millisecond ≤ SimpleTask.duration o < 400 * time.Millisecond.
Proof.
  unfold SimpleTask.duration, time.Millisecond.
  pose proof (Z.mod_pos_bound (intn o) 100 ltac:(lia)). lia.
Qed.

(** ** [SimpleTask.Execute] *)

Section simple_task.

Variables (tk : SimpleTask.t) (c : context.Context) (t : Z) (o : oracle).

(** The deadline of [taskCtx] passes before the goroutine has slept: the
    [select] takes [<-taskCtx.Done()]. *)
Lemma Execute_deadline_first (d : Z) :
  context.Deadline (SimpleTask.taskCtx tk c t) = Some d → d < SimpleTask.woke t o →
  SimpleTask.Execute tk c t o = (SimpleTask.timed_out tk, Z.max t d).
Proof.
  intros Hd Hlt. pose proof (duration_range o) as Hr.
  unfold time.Millisecond in Hr.
  unfold SimpleTask.Execute, SimpleTask.selected. fold (SimpleTask.taskCtx tk c t). rewrite Hd.
  unfold SimpleTask.woke in *.
  replace (Z.min d (t + SimpleTask.duration o)) with d by lia.
  assert (context.Done (SimpleTask.taskCtx tk c t) (Z.max t d) = true) as HD.
  { apply Done_true. exists d. split; [done | lia]. }
  rewrite HD, (Err_Done _ _ HD).
  destruct (Z.leb_spec (t + SimpleTask.duration o) (Z.max t d)); [lia | done].
Qed.

(** The goroutine has slept before the deadline of [taskCtx] passes: it
    sends [nil], which the [select] receives. *)
Lemma Execute_work_first (d : Z) :
  context.Deadline (SimpleTask.taskCtx tk c t) = Some d → SimpleTask.woke t o < d →
  SimpleTask.Execute tk c t o = (None, SimpleTask.woke t o).
Proof.
  intros Hd Hlt. pose proof (duration_range o) as Hr.
  unfold time.Millisecond in Hr.
  unfold SimpleTask.Execute, SimpleTask.selected, SimpleTask.sent.
  fold (SimpleTask.taskCtx tk c t). rewrite Hd. unfold SimpleTask.woke in *.
  replace (Z.max t (Z.min d (t + SimpleTask.duration o)))
    with (t + SimpleTask.duration o) by lia.
  assert (context.Done (SimpleTask.taskCtx tk c t) (t + SimpleTask.duration o) = false) as HD.
  { apply Done_false. intros d'. rewrite Hd. intros [= <-]. done. }
  by rewrite HD.
Qed.

(** Both at the same instant: either case of the [select] may be taken. *)
Lemma Execute_tie :
  context.Deadline (SimpleTask.taskCtx tk c t) = Some (SimpleTask.woke t o) →
  SimpleTask.Execute tk c t o =
    (if prefer_done o then Some (ErrContext context.DeadlineExceeded) else SimpleTask.timed_out tk,
     SimpleTask.woke t o).
Proof.
  intros Hd. pose proof (duration_range o) as Hr.
  unfold time.Millisecond in Hr.
  unfold SimpleTask.Execute, SimpleTask.selected, SimpleTask.sent.
  fold (SimpleTask.taskCtx tk c t). rewrite Hd. unfold SimpleTask.woke in *.
  replace (Z.max t (Z.min (t + SimpleTask.duration o) (t + SimpleTask.duration o)))
    with (t + SimpleTask.duration o) by lia.
  assert (context.Done (SimpleTask.taskCtx tk c t) (t + SimpleTask.duration o) = true) as HD.
  { apply Done_true. eexists. split; [done | lia]. }
  rewrite HD, (Err_Done _ _ HD), Z.leb_refl. simpl. by destruct (prefer_done o).
Qed.

End simple_task.

(** ** [LongRunningTask.Execute] *)

Section long_running_task.

Variables (tk : LongRunningTask.t) (c : context.Context).

Lemma poll_0 (t : Z) : LongRunningTask.poll t 0 = t.
Proof. unfold LongRunningTask.poll. lia. Qed.

Lemma poll_S (t : Z) (j : nat) :
  LongRunningTask.poll t (S j) = LongRunningTask.poll (t + 100 * time.Millisecond) j.
Proof. unfold LongRunningTask.poll. lia. Qed.

(** No poll of the loop finds the context done: every step is made. *)
Lemma loop_completes (left : nat) (i t : Z) :
  (∀ j : nat, (j < left)%nat → context.Done c (LongRunningTask.poll t j) = false) →
  LongRunningTask.loop tk c left i t =
    LongRunningTask.mkResult None (LongRunningTask.poll t left) (i + Z.of_nat left).
Proof.
  revert i t. induction left as [|left IH]; intros i t Hno; simpl.
  - rewrite poll_0. f_equal; lia.
  - pose proof (Hno O ltac:(lia)) as H0. rewrite poll_0 in H0. rewrite H0.
    rewrite IH.
    + rewrite poll_S. f_equal; lia.
    + intros j Hj. rewrite <- poll_S. apply Hno. lia.
Qed.

(** Some poll finds the context done: the loop returns at the first such
    poll, and reports its index. *)
Lemma loop_cancelled (left : nat) (i t : Z) (k : nat) :
  (k < left)%nat → context.Done c (LongRunningTask.poll t k) = true →
  ∃ j : nat, (j ≤ k)%nat ∧
    context.Done c (LongRunningTask.poll t j) = true ∧
    (∀ j' : nat, (j' < j)%nat → context.Done c (LongRunningTask.poll t j') = false) ∧
    LongRunningTask.loop tk c left i t =
      LongRunningTask.mkResult
        (Some (ErrCancelledAtStep (LongRunningTask.ID tk) (i + Z.of_nat j)
                 (Some context.DeadlineExceeded)))
        (LongRunningTask.poll t j) (i + Z.of_nat j).
Proof.
  revert i t k. induction left as [|left IH]; intros i t k Hk HD; [lia|].
  simpl. destruct (context.Done c t) eqn:E.
  - exists O. rewrite poll_0, Z.add_0_r, (Err_Done _ _ E).
    repeat split; [lia | done | intros; lia].
  - destruct k as [|k]; [rewrite poll_0 in HD; congruence|].
    rewrite poll_S in HD.
    destruct (IH (i + 1) (t + 100 * time.Millisecond) k ltac:(lia) HD)
      as (j & Hj & HDj & Hfirst & Heq).
    exists (S j). rewrite poll_S. repeat split; [lia | done | |].
    + intros [|j'] Hj'; [by rewrite poll_0|].
      rewrite poll_S. apply Hfirst. lia.
    + rewrite Heq. f_equal; [do 2 f_equal; lia | lia].
Qed.

End long_running_task.

Lemma bounded_search (P : nat → bool) (n : nat) :
  (∃ k : nat, (k < n)%nat ∧ P k = true) ∨ (∀ k : nat, (k < n)%nat → P k = false).
Proof.
  induction n as [|n [(k & Hk & HP)|Hno]].
  - right. intros k Hk. lia.
  - left. exists k. split; [lia | done].
  - destruct (P n) eqn:E.
    + left. exists n. split; [lia | done].
    + right. intros k Hk. destruct (decide (k = n)) as [->|]; [done|].
      apply Hno. lia.
Qed.

(** * The claims about [Execute] *)

(** C2, as amended: a [SimpleTask] whose [Timeout] is shorter than the drawn
    duration of its work returns the timeout error, under every context; one
    whose [Timeout] is longer returns [nil] provided the context handed to
    [Execute] is not done when the work ends. *)
Theorem SimpleTask_Execute_outcome (tk : SimpleTask.t) (c : context.Context) (t : Z) (o : oracle) :
  (SimpleTask.Timeout tk < SimpleTask.duration o →
   (SimpleTask.Execute tk c t o).1 =
     Some (ErrTimeout (SimpleTask.ID tk) (Some context.DeadlineExceeded)))
  ∧ (SimpleTask.duration o < SimpleTask.Timeout tk →
     context.Done c (t + SimpleTask.duration o) = false →
     (SimpleTask.Execute tk c t o).1 = None).
Proof.
  pose proof (WithTimeout_Deadline c t (SimpleTask.Timeout tk)) as Hd.
  split.
  - intros Hlt. erewrite Execute_deadline_first; [done | exact Hd |].
    unfold SimpleTask.woke. destruct (context.Deadline c); lia.
  - intros Hlt Hc. erewrite Execute_work_first; [done | exact Hd |].
    unfold SimpleTask.woke. destruct (context.Deadline c) as [cur|] eqn:E; [|lia].
    pose proof (proj1 (Done_false _ _) Hc cur E). lia.
Qed.

Lemma SimpleTask_Execute_outcome_witness :
  (SimpleTask.Execute (NewSimpleTask "task-0" (100 * time.Millisecond))
     context.Background 0 (mkOracle 0 true)).1 =
    Some (ErrTimeout "task-0" (Some context.DeadlineExceeded))
  ∧ (SimpleTask.Execute (NewSimpleTask "task-1" (2 * time.Second))
       (context.WithTimeout context.Background 0 (4 * time.Second)) 0
       (mkOracle 0 true)).1 = None.
Proof.
  split.
  - apply (proj1 (SimpleTask_Execute_outcome
                    (NewSimpleTask "task-0" (100 * time.Millisecond))
                    context.Background 0 (mkOracle 0 true))).
    reflexivity.
  - apply (proj2 (SimpleTask_Execute_outcome
                    (NewSimpleTask "task-1" (2 * time.Second))
                    (context.WithTimeout context.Background 0 (4 * time.Second)) 0
                    (mkOracle 0 true))); reflexivity.
Defined.

(** C2 as stated fails: a [SimpleTask] with a [Timeout] of 2s and work of
    300ms, executed 3.8s into a run of 4s, returns the timeout error. *)
Lemma SimpleTask_Execute_late_in_run :
  SimpleTask.duration (mkOracle 0 true) <
    SimpleTask.Timeout (NewSimpleTask "task-1" (2 * time.Second))
  ∧ (SimpleTask.Execute (NewSimpleTask "task-1" (2 * time.Second))
       (context.WithTimeout context.Background 0 (4 * time.Second))
       (3800 * time.Millisecond) (mkOracle 0 true)).1 =
      Some (ErrTimeout "task-1" (Some context.DeadlineExceeded)).
Proof. split; reflexivity. Qed.

(** C3, as amended: when one of the polls a [LongRunningTask] makes before
    its steps finds its context done, [Execute] returns the cancellation
    error, reporting the number of steps done, which is less than [Count];
    when none does (so when the context is never done), it returns [nil]
    after the last step. *)
Theorem LongRunningTask_Execute_outcome (tk : LongRunningTask.t) (c : context.Context) (t : Z) :
  (∀ k : nat,
      Z.of_nat k < LongRunningTask.Count tk →
      context.Done (context.WithTimeout c t (LongRunningTask.Timeout tk))
        (LongRunningTask.poll t k) = true →
      ∃ i : Z,
        (LongRunningTask.Execute tk c t).1 =
          Some (ErrCancelledAtStep (LongRunningTask.ID tk) i (Some context.DeadlineExceeded))
        ∧ 0 ≤ i ≤ Z.of_nat k ∧ i < LongRunningTask.Count tk
        ∧ LongRunningTask.progress (LongRunningTask.run tk c t) = i)
  ∧ ((∀ k : nat,
        Z.of_nat k < LongRunningTask.Count tk →
        context.Done (context.WithTimeout c t (LongRunningTask.Timeout tk))
          (LongRunningTask.poll t k) = false) →
     LongRunningTask.Execute tk c t =
       (None, LongRunningTask.poll t (Z.to_nat (LongRunningTask.Count tk)))
     ∧ LongRunningTask.progress (LongRunningTask.run tk c t) =
         Z.max 0 (LongRunningTask.Count tk)).
Proof.
  unfold LongRunningTask.Execute, LongRunningTask.run. split.
  - intros k Hk HD.
    destruct (loop_cancelled tk _ (Z.to_nat (LongRunningTask.Count tk)) 0 t k
                ltac:(lia) HD) as (j & Hj & _ & _ & ->).
    exists (Z.of_nat j). simpl. repeat split; try done; lia.
  - intros Hno. rewrite loop_completes; [simpl; split; [done | lia]|].
    intros j Hj. apply Hno. lia.
Qed.

Lemma LongRunningTask_Execute_outcome_witness :
  (∃ i : Z,
      (LongRunningTask.Execute (NewLongRunningTask "long-task-2" 20 (1 * time.Second))
         context.Background 0).1 =
        Some (ErrCancelledAtStep "long-task-2" i (Some context.DeadlineExceeded))
      ∧ 0 ≤ i ≤ Z.of_nat 12 ∧ i < 20
      ∧ LongRunningTask.progress
          (LongRunningTask.run (NewLongRunningTask "long-task-2" 20 (1 * time.Second))
             context.Background 0) = i)
  ∧ (LongRunningTask.Execute (NewLongRunningTask "long-task-3" 2 (1 * time.Second))
       context.Background 0 = (None, 200 * time.Millisecond)
     ∧ LongRunningTask.progress
         (LongRunningTask.run (NewLongRunningTask "long-task-3" 2 (1 * time.Second))
            context.Background 0) = 2).
Proof.
  split.
  - apply (proj1 (LongRunningTask_Execute_outcome
                    (NewLongRunningTask "long-task-2" 20 (1 * time.Second))
                    context.Background 0) 12%nat); reflexivity.
  - apply (proj2 (LongRunningTask_Execute_outcome
                    (NewLongRunningTask "long-task-3" 2 (1 * time.Second))
                    context.Background 0)).
    intros [|[|k]] Hk; [reflexivity | reflexivity | simpl in Hk; lia].
Defined.

(** C3 as stated fails: a task of one step with a [Timeout] of 50ms has its
    context done from instant 50ms on, before the step ends at 100ms, and
    [Execute] returns [nil] with the step reported as done. *)
Lemma LongRunningTask_Execute_deadline_in_last_step :
  context.Done
    (context.WithTimeout context.Background 0
       (LongRunningTask.Timeout (NewLongRunningTask "long-task" 1 (50 * time.Millisecond))))
    (50 * time.Millisecond) = true
  ∧ LongRunningTask.run (NewLongRunningTask "long-task" 1 (50 * time.Millisecond))
      context.Background 0 =
    LongRunningTask.mkResult None (100 * time.Millisecond) 1
  ∧ LongRunningTask.Execute (NewLongRunningTask "long-task" 1 (50 * time.Millisecond))
      context.Background 0 = (None, 100 * time.Millisecond).
Proof. repeat split; reflexivity. Qed.

(** C4, as amended: the error [Execute] returns depends on the kind of task
    and on whether a budget has run out, not on which one.  A [SimpleTask]
    returns [nil] exactly when no budget has run out at its return, and
    otherwise the timeout error, or the bare context error; a
    [LongRunningTask] returns [nil] or, a budget having run out, the
    cancellation error at a step below [Count].  The cause carried is always
    [DeadlineExceeded], and there is no other error. *)
Theorem Execute_error_kinds (task : Task) (c : context.Context) (t : Z) (o : oracle) :
  match task with
  | Simple tk =>
      ((Execute task c t o).1 = None ↔ fired task c t (Execute task c t o).2 = NoExpiry)
      ∧ ((Execute task c t o).1 = None
         ∨ (Execute task c t o).1 =
             Some (ErrTimeout (SimpleTask.ID tk) (Some context.DeadlineExceeded))
         ∨ (Execute task c t o).1 = Some (ErrContext context.DeadlineExceeded))
  | LongRunning tk =>
      (Execute task c t o).1 = None
      ∨ (fired task c t (Execute task c t o).2 ≠ NoExpiry
         ∧ ∃ i : Z, 0 ≤ i < LongRunningTask.Count tk
             ∧ (Execute task c t o).1 =
                 Some (ErrCancelledAtStep (LongRunningTask.ID tk) i
                         (Some context.DeadlineExceeded)))
  end.
Proof.
  destruct task as [tk|tk]; simpl.
  - pose proof (WithTimeout_Deadline c t (SimpleTask.Timeout tk)) as Hd.
    pose proof (duration_range o) as Hr. unfold time.Millisecond in Hr.
    set (d := match context.Deadline c with
              | Some cur => Z.min cur (t + SimpleTask.Timeout tk)
              | None => t + SimpleTask.Timeout tk
              end) in *.
    assert (∀ r, fired (Simple tk) c t r = NoExpiry ↔ r < d) as Hfired.
    { intros r. unfold fired, context.Done, d. simpl.
      destruct (context.Deadline c) as [cur|].
      - destruct (Z.leb_spec cur r), (Z.leb_spec (t + SimpleTask.Timeout tk) r);
          split; intros; try done; lia.
      - destruct (Z.leb_spec (t + SimpleTask.Timeout tk) r); split; intros; try done; lia. }
    destruct (Z.lt_total d (SimpleTask.woke t o)) as [Hlt|[Heq|Hgt]].
    + rewrite (Execute_deadline_first tk c t o d Hd Hlt). simpl.
      rewrite Hfired. split; [split; [done | lia] | auto].
    + rewrite Heq in Hd. rewrite (Execute_tie tk c t o Hd). simpl.
      rewrite Hfired. split; [split; [by destruct (prefer_done o) | lia]|].
      destruct (prefer_done o); auto.
    + rewrite (Execute_work_first tk c t o d Hd Hgt). simpl.
      rewrite Hfired. split; [done | auto].
  - unfold LongRunningTask.Execute, LongRunningTask.run. simpl.
    set (taskCtx := context.WithTimeout c t (LongRunningTask.Timeout tk)).
    set (n := Z.to_nat (LongRunningTask.Count tk)).
    destruct (bounded_search (λ k, context.Done taskCtx (LongRunningTask.poll t k)) n)
      as [(k & Hk & HD)|Hno].
    + destruct (loop_cancelled tk taskCtx n 0 t k Hk HD) as (j & Hj & HDj & _ & ->).
      right. simpl. split.
      * unfold taskCtx in HDj. rewrite WithTimeout_Done in HDj.
        unfold fired. simpl.
        destruct (context.Done c (LongRunningTask.poll t j)); [done|].
        simpl in HDj. by rewrite HDj.
      * exists (Z.of_nat j). split; [lia | done].
    + left. by rewrite loop_completes.
Qed.

(** C4 as stated fails: which budget ran out cannot be told from what
    [Execute] returns.  The same error is returned by a [SimpleTask] whose own
    budget ran out and by one stopped by the budget of the run. *)
Lemma Execute_expiry_not_recoverable :
  ¬ ∃ recover : Outcome → expiry,
      ∀ (task : Task) (c : context.Context) (t : Z) (o : oracle),
        recover (Execute task c t o).1 = fired task c t (Execute task c t o).2.
Proof.
  intros (recover & H).
  pose proof (H (Simple (NewSimpleTask "task-1" (100 * time.Millisecond)))
                (context.WithTimeout context.Background 0 (4 * time.Second))
                0 (mkOracle 0 true)) as Hown.
  pose proof (H (Simple (NewSimpleTask "task-1" (2 * time.Second)))
                (context.WithTimeout context.Background 0 (4 * time.Second))
                (3800 * time.Millisecond) (mkOracle 0 true)) as Hglobal.
  vm_compute in Hown, Hglobal. congruence.
Qed.

(** * Properties of a run *)

Lemma exec_app (es es' : list event) (s : state) :
  exec (es ++ es') s = exec es s ≫= exec es'.
Proof.
  revert s. induction es as [|e es IH]; intros s; simpl; [done|].
  destruct (step e s) as [s1|]; simpl; [apply IH | done].
Qed.

Lemma reachable_begin (s0 : TaskScheduler) (t0 : Z) : reachable s0 t0 (Run_begin s0 t0).
Proof. by exists []. Qed.

Lemma reachable_step (s0 : TaskScheduler) (t0 : Z) (e : event) (s s' : state) :
  reachable s0 t0 s → step e s = Some s' → reachable s0 t0 s'.
Proof.
  intros [es Hes] Hstep. exists (es ++ [e]).
  rewrite exec_app, Hes. simpl. by rewrite Hstep.
Qed.

Lemma reachable_exec (s0 : TaskScheduler) (t0 : Z) (es : list event) (s s' : state) :
  reachable s0 t0 s → exec es s = Some s' → reachable s0 t0 s'.
Proof.
  intros [es0 Hes] Hexec. exists (es0 ++ es). by rewrite exec_app, Hes.
Qed.

(** What holds when [Run] begins and is kept by every step holds in every
    state of the run. *)
Lemma reachable_ind (s0 : TaskScheduler) (t0 : Z) (P : state → Prop) :
  P (Run_begin s0 t0) →
  (∀ e s s', reachable s0 t0 s → P s → step e s = Some s' → P s') →
  ∀ s, reachable s0 t0 s → P s.
Proof.
  intros Hbegin Hstep s [es Hes]. revert s Hes.
  induction es as [|e es IH] using rev_ind; intros s Hes.
  - by injection Hes as <-.
  - rewrite exec_app in Hes. destruct (exec es (Run_begin s0 t0)) as [s1|] eqn:E; [|done].
    simpl in Hes. destruct (step e s1) as [s2|] eqn:E2; [|done].
    injection Hes as <-. eapply Hstep; [by exists es | by apply IH | done].
Qed.

Lemma dequeued_app (tr tr' : list obs) : dequeued (tr ++ tr') = dequeued tr ++ dequeued tr'.
Proof. apply omap_app. Qed.

Lemma dequeued_when_app (late : bool) (c : context.Context) (tr tr' : list obs) :
  dequeued_when late c (tr ++ tr') = dequeued_when late c tr ++ dequeued_when late c tr'.
Proof. apply omap_app. Qed.

Lemma executed_app (tr tr' : list obs) : executed (tr ++ tr') = executed tr ++ executed tr'.
Proof. apply omap_app. Qed.

Lemma recorded_app (tr tr' : list obs) : recorded (tr ++ tr') = recorded tr ++ recorded tr'.
Proof. apply omap_app. Qed.

Lemma writes_app (tr tr' : list obs) : writes (tr ++ tr') = writes tr ++ writes tr'.
Proof. apply omap_app. Qed.

Lemma exited_app (tr tr' : list obs) : exited (tr ++ tr') = exited tr ++ exited tr'.
Proof. apply omap_app. Qed.

Lemma queue_lookup (ts : list Task) (n idx : nat) (task : Task) :
  queue ts !! n = Some (idx, task) ↔ idx = n ∧ ts !! n = Some task.
Proof.
  unfold queue. rewrite list_lookup_imap.
  destruct (ts !! n) as [task'|]; simpl.
  - split; [by intros [= <- <-] | by intros [-> [= ->]]].
  - split; [done | by intros [_ ?]].
Qed.

Lemma queue_length (ts : list Task) : length (queue ts) = length ts.
Proof. apply length_imap. Qed.

(** The head of what is left after [n] receptions is item [n]. *)
Lemma queue_drop_cons (ts : list Task) (n idx : nat) (task : Task) (rest : list (nat * Task)) :
  drop n (queue ts) = (idx, task) :: rest →
  idx = n ∧ ts !! n = Some task ∧ rest = drop (S n) (queue ts).
Proof.
  intros Hd.
  assert (queue ts !! n = Some (idx, task)) as Hl.
  { rewrite <- (Nat.add_0_r n), <- lookup_drop, Hd. done. }
  pose proof (proj1 (queue_lookup _ _ _ _) Hl) as [-> Hts].
  repeat split; [done|].
  rewrite (drop_S _ _ _ Hl) in Hd. by injection Hd.
Qed.

(** Counting the workers that have not returned. *)

Lemma live_app (gs gs' : list goroutine) : live (gs ++ gs') = (live gs + live gs')%nat.
Proof.
  induction gs as [|g gs IH]; simpl; [done|]. destruct g; simpl; lia.
Qed.

Lemma live_cons (g : goroutine) (gs : list goroutine) :
  live (g :: gs) = (alive g + live gs)%nat.
Proof. by destruct g. Qed.

Lemma live_insert (gs : list goroutine) (w : nat) (g g' : goroutine) :
  gs !! w = Some g →
  (live (<[w := g']> gs) + alive g = live gs + alive g')%nat.
Proof.
  intros Hw. pose proof (lookup_lt_Some _ _ _ Hw) as Hlt.
  rewrite <- (take_drop_middle gs w g Hw) at 2.
  rewrite insert_take_drop by done.
  rewrite !live_app, !live_cons. lia.
Qed.

Lemma live_0 (gs : list goroutine) (w : nat) (g : goroutine) :
  live gs = O → gs !! w = Some g → g = Exited.
Proof.
  revert w. induction gs as [|g' gs IH]; intros w Hl Hw; [done|].
  rewrite live_cons in Hl. destruct w as [|w]; simpl in Hw.
  - injection Hw as ->. destruct g; simpl in Hl; [lia | lia | lia | done].
  - apply (IH w); [lia | done].
Qed.

Lemma in_flight_app (gs gs' : list goroutine) :
  in_flight (gs ++ gs') = in_flight gs ++ in_flight gs'.
Proof. apply omap_app. Qed.

Lemma in_flight_cons (g : goroutine) (gs : list goroutine) :
  in_flight (g :: gs) = in_flight [g] ++ in_flight gs.
Proof. apply (in_flight_app [g] gs). Qed.

Lemma in_flight_live_0 (gs : list goroutine) : live gs = O → in_flight gs = [].
Proof.
  induction gs as [|g gs IH]; [done|]. rewrite live_cons.
  destruct g; simpl; [lia | lia | lia | done].
Qed.

(** Replacing one goroutine of the pool changes the executions under way
    by what the two goroutines are executing. *)
Lemma in_flight_insert (gs : list goroutine) (w : nat) (g g' : goroutine) :
  gs !! w = Some g →
  in_flight (<[w := g']> gs) ++ in_flight [g] ≡ₚ in_flight gs ++ in_flight [g'].
Proof.
  intros Hw. pose proof (lookup_lt_Some _ _ _ Hw) as Hlt.
  rewrite <- (take_drop_middle gs w g Hw) at 2.
  rewrite insert_take_drop by done.
  rewrite !in_flight_app, !(in_flight_cons _ (drop _ _)).
  set (a := in_flight (take w gs)). set (b := in_flight (drop (S w) gs)).
  set (x := in_flight [g]). set (y := in_flight [g']).
  rewrite <- !(assoc_L (++)).
  apply Permutation_app_head.
  etrans; [apply Permutation_app_comm|].
  rewrite (Permutation_app_comm b x). by rewrite <- (assoc_L (++)).
Qed.

Lemma held_app (gs gs' : list goroutine) : held (gs ++ gs') = held gs ++ held gs'.
Proof. apply omap_app. Qed.

Lemma held_cons (g : goroutine) (gs : list goroutine) :
  held (g :: gs) = held [g] ++ held gs.
Proof. apply (held_app [g] gs). Qed.

(** Replacing one goroutine of the pool changes the items held by what the
    two goroutines hold. *)
Lemma held_insert (gs : list goroutine) (w : nat) (g g' : goroutine) :
  gs !! w = Some g →
  held (<[w := g']> gs) ++ held [g] ≡ₚ held gs ++ held [g'].
Proof.
  intros Hw. pose proof (lookup_lt_Some _ _ _ Hw) as Hlt.
  rewrite <- (take_drop_middle gs w g Hw) at 2.
  rewrite insert_take_drop by done.
  rewrite !held_app, !(held_cons _ (drop _ _)).
  set (a := held (take w gs)). set (b := held (drop (S w) gs)).
  set (x := held [g]). set (y := held [g']).
  rewrite <- !(assoc_L (++)).
  apply Permutation_app_head.
  etrans; [apply Permutation_app_comm|].
  rewrite (Permutation_app_comm b x). by rewrite <- (assoc_L (++)).
Qed.

Lemma submseteq_NoDup {A : Type} (l k : list A) : l ⊆+ k → NoDup k → NoDup l.
Proof.
  intros [k' Hk]%submseteq_Permutation Hnd. rewrite Hk in Hnd.
  by apply NoDup_app in Hnd as [? _].
Qed.

(** A list that ends with [y], cut at an occurrence of [x]. *)
Lemma split_snoc {A : Type} (l1 l2 l : list A) (x y : A) :
  l1 ++ x :: l2 = l ++ [y] →
  (l2 = [] ∧ l1 = l ∧ x = y) ∨ ∃ l2', l2 = l2' ++ [y] ∧ l = l1 ++ x :: l2'.
Proof.
  destruct l2 as [|z l2 _] using rev_ind.
  - intros [-> ->]%(app_inj_tail l1 l). by left.
  - rewrite app_comm_cons, (assoc_L (++)). intros [<- ->]%app_inj_tail.
    right. by exists l2.
Qed.

(** The function [step] and the relation [transition] agree. *)
Lemma step_transition (e : event) (s s' : state) :
  step e s = Some s' ↔ transition e s s'.
Proof.
  split.
  - destruct e as [|w o|d]; simpl.
    + unfold Run_step. destruct (pc s) as [i| |] eqn:Hpc; [| |done].
      * destruct (Z.ltb_spec i (workerCount (sch s))); intros [= <-];
          [by eapply t_spawn | by eapply t_spawned].
      * destruct (Z.eqb_spec (wg (sch s)) 0); intros [= <-]. by apply t_join.
    + unfold worker.
      destruct (pool s !! w) as [[|idx task|idx task err ret|]|] eqn:Hw; [| | |done|done].
      * destruct (taskChan s) as [|[idx task] rest] eqn:Hq; intros [= <-];
          [by apply t_drained | by eapply t_receive].
      * destruct (context.Done (ctx s) (now s)) eqn:HD; intros [= <-];
          [by eapply t_abandon | by eapply t_call].
      * destruct (Z.leb_spec ret (now s)); intros [= <-]. by eapply t_record.
    + unfold tick. destruct (Z.ltb_spec 0 d); intros [= <-]. by apply t_tick.
  - destruct 1; simpl; unfold Run_step, worker, tick;
      repeat match goal with H : _ = _ |- _ => rewrite H end; try done.
    + by destruct (Z.ltb_spec i (workerCount (sch s))); [|lia].
    + by destruct (Z.ltb_spec i (workerCount (sch s))); [lia|].
    + by destruct (Z.leb_spec ret (now s)); [|lia].
    + by destruct (Z.ltb_spec 0 d); [|lia].
Qed.

(** What holds when [Run] begins and is kept by every transition holds in
    every state of the run. *)
Lemma run_ind (s0 : TaskScheduler) (t0 : Z) (P : state → Prop) :
  P (Run_begin s0 t0) →
  (∀ e s s', reachable s0 t0 s → P s → transition e s s' → P s') →
  ∀ s, reachable s0 t0 s → P s.
Proof.
  intros Hbegin Hstep. apply reachable_ind; [done|].
  intros e s s' Hs HP Hss'. eapply Hstep; [done | done | by apply step_transition].
Qed.

Section run.

Context (s0 : TaskScheduler) (t0 : Z).

(** The scheduler's configuration, its task list and the context of the run
    do not change, and time does not go back. *)
Lemma run_static (s : state) :
  reachable s0 t0 s →
  tasks (sch s) = tasks s0 ∧ timeout (sch s) = timeout s0
  ∧ workerCount (sch s) = workerCount s0
  ∧ ctx s = context.WithTimeout context.Background t0 (timeout s0)
  ∧ t0 ≤ now s.
Proof.
  revert s. apply run_ind; [done|].
  intros e s s' _ (Hts & Hto & Hwc & Hctx & Hnow) Hstep.
  destruct Hstep; simpl; repeat split; try done; lia.
Qed.

(** The channel is first in, first out: what is left in it is a suffix of
    what [Run] put into it, and the items received are the positions
    before that suffix, in order. *)
Lemma run_queue (s : state) :
  reachable s0 t0 s →
  ∃ n : nat, taskChan s = drop n (queue (tasks s0)) ∧ dequeued (trace s) = seq 0 n
             ∧ (n ≤ length (tasks s0))%nat.
Proof.
  revert s. apply run_ind; [exists O; repeat split; lia|].
  intros e s s' _ (n & Hq & Hd & Hn) Hstep.
  destruct Hstep as [| | | |w o s idx task rest _ Hrest| | | |];
    simpl; rewrite ?dequeued_app, ?Hd; simpl; rewrite ?app_nil_r; try (by exists n).
  rewrite Hrest in Hq. symmetry in Hq.
  apply queue_drop_cons in Hq as (-> & Hl%lookup_lt_Some & ->).
  exists (S n). rewrite seq_S. repeat split; try done; lia.
Qed.

(** The task a worker holds at its [select] is the one at that position of
    the batch, and the worker has received it, at an instant that is not in
    the future. *)
Lemma run_held (s : state) :
  reachable s0 t0 s →
  ∀ w idx task, pool s !! w = Some (AtSelect idx task) →
    tasks s0 !! idx = Some task ∧ ∃ at_, ODequeue w idx at_ ∈ trace s ∧ at_ ≤ now s.
Proof.
  revert s.
  apply (run_ind s0 t0 (λ s, ∀ w idx task, pool s !! w = Some (AtSelect idx task) →
           tasks s0 !! idx = Some task ∧ ∃ at_, ODequeue w idx at_ ∈ trace s ∧ at_ ≤ now s));
    [done|].
  intros e s s' Hs IH Hstep.
  destruct (run_queue s Hs) as (n & Hq & _ & _).
  assert (∀ w idx task seen t, pool s !! w = Some (AtSelect idx task) → now s ≤ t →
            tasks s0 !! idx = Some task
            ∧ ∃ at_, ODequeue w idx at_ ∈ trace s ++ seen ∧ at_ ≤ t) as Hkeep.
  { intros w idx task seen t Hw Ht. destruct (IH _ _ _ Hw) as (Htask & at_ & Hin & Hat).
    split; [done|]. exists at_. split; [apply elem_of_app; by left | lia]. }
  destruct Hstep as [| | |w o s Hw _|w o s idx task rest Hw Hrest
                     |w o s idx task Hw _|w o s idx task Hw _|w o s idx task err ret Hw _|d s Hd];
    simpl; intros w' idx' task' Hw'.
  - apply lookup_snoc_Some in Hw' as [[_ Hl]|[_ [=]]]. by apply IH.
  - by apply IH.
  - apply Hkeep; [done | lia].
  - apply list_lookup_insert_Some in Hw' as [(_ & [=] & _)|[_ Hl]]. apply Hkeep; [done | lia].
  - apply list_lookup_insert_Some in Hw' as [(<- & [= <- <-] & _)|[_ Hl]];
      [|apply Hkeep; [done | lia]].
    rewrite Hrest in Hq. symmetry in Hq. apply queue_drop_cons in Hq as (-> & Htask & _).
    split; [done|]. exists (now s). split; [apply elem_of_app; right; by left | done].
  - apply list_lookup_insert_Some in Hw' as [(_ & [=] & _)|[_ Hl]]. apply Hkeep; [done | lia].
  - apply list_lookup_insert_Some in Hw' as [(_ & [=] & _)|[_ Hl]]. apply Hkeep; [done | lia].
  - apply list_lookup_insert_Some in Hw' as [(_ & [=] & _)|[_ Hl]]. apply Hkeep; [done | lia].
  - destruct (IH _ _ _ Hw') as (Htask & at_ & Hin & Hat).
    split; [done|]. exists at_. split; [done | lia].
Qed.

(** The items [Execute] was called on and those held by workers at their
    [select] are, together, among the items received, none of them twice;
    and the items [Execute] was called on are those whose result is written
    already and those whose [Execute] is under way. *)
Lemma run_executed (s : state) :
  reachable s0 t0 s →
  executed (trace s) ++ held (pool s) ⊆+ dequeued (trace s)
  ∧ executed (trace s) ≡ₚ recorded (trace s) ++ in_flight (pool s).
Proof.
  revert s. apply run_ind; [done|].
  intros e s s' _ (Hsub & Hperm) Hstep.
  destruct Hstep as [| | |w o s Hw _|w o s idx task rest Hw _
                     |w o s idx task Hw _|w o s idx task Hw _|w o s idx task err ret Hw _|];
    simpl; rewrite ?executed_app, ?dequeued_app, ?recorded_app,
                   ?in_flight_app, ?held_app, ?app_nil_r; simpl;
    rewrite ?app_nil_r; try done.
  - pose proof (in_flight_insert (pool s) w AtRange Exited Hw) as Hi.
    pose proof (held_insert (pool s) w AtRange Exited Hw) as Hh.
    simpl in Hi, Hh. rewrite !app_nil_r in Hi, Hh. by rewrite Hi, Hh.
  - pose proof (in_flight_insert (pool s) w AtRange (AtSelect idx task) Hw) as Hi.
    pose proof (held_insert (pool s) w AtRange (AtSelect idx task) Hw) as Hh.
    simpl in Hi, Hh. rewrite !app_nil_r in Hi. rewrite app_nil_r in Hh.
    rewrite Hi, Hh, (assoc_L (++)). split; [by apply submseteq_skips_r | done].
  - pose proof (in_flight_insert (pool s) w (AtSelect idx task) Exited Hw) as Hi.
    pose proof (held_insert (pool s) w (AtSelect idx task) Exited Hw) as Hh.
    simpl in Hi, Hh. rewrite !app_nil_r in Hi. rewrite app_nil_r in Hh.
    rewrite Hi. split; [|done]. etrans; [|exact Hsub].
    rewrite <- Hh, (assoc_L (++)). by apply submseteq_inserts_r.
  - pose proof (in_flight_insert (pool s) w (AtSelect idx task)
                  (InExecute idx task (Execute task (ctx s) (now s) o).1
                     (Execute task (ctx s) (now s) o).2) Hw) as Hi.
    pose proof (held_insert (pool s) w (AtSelect idx task)
                  (InExecute idx task (Execute task (ctx s) (now s) o).1
                     (Execute task (ctx s) (now s) o).2) Hw) as Hh.
    simpl in Hi, Hh. rewrite app_nil_r in Hi, Hh. split.
    + rewrite <- (assoc_L (++)), (Permutation_app_comm [idx]), Hh. done.
    + rewrite Hi, Hperm. by rewrite (assoc_L (++)).
  - pose proof (in_flight_insert (pool s) w (InExecute idx task err ret) AtRange Hw) as Hi.
    pose proof (held_insert (pool s) w (InExecute idx task err ret) AtRange Hw) as Hh.
    simpl in Hi, Hh. rewrite app_nil_r in Hi. rewrite !app_nil_r in Hh.
    split; [by rewrite Hh|]. rewrite Hperm, <- Hi.
    rewrite <- !(assoc_L (++)). apply Permutation_app_head, Permutation_app_comm.
Qed.

(** The result map is what the writes of the trace make of it. *)
Lemma run_results (s : state) :
  reachable s0 t0 s →
  results (sch s) = apply_writes (results s0) (writes (trace s)).
Proof.
  revert s. apply run_ind; [done|].
  intros e s s' _ Hres Hstep.
  destruct Hstep; simpl; rewrite ?writes_app, ?app_nil_r; simpl;
    rewrite ?app_nil_r; try done.
  unfold apply_writes in *. by rewrite foldl_app, <- Hres.
Qed.

(** Every [Execute] under way was called on a task of the batch, at an
    instant of the run at which its context was not done; every result
    written is what such a call returned, written under the identifier of its
    task, after the call had returned. *)
Lemma run_calls (s : state) :
  reachable s0 t0 s →
  (∀ w idx task err ret,
     pool s !! w = Some (InExecute idx task err ret) → Execute_call s0 t0 idx task err ret)
  ∧ (∀ w idx id err,
       ORecord w idx id err ∈ trace s →
       ∃ task ret, id = GetID task ∧ Execute_call s0 t0 idx task err ret ∧ ret ≤ now s).
Proof.
  revert s.
  apply (run_ind s0 t0 (λ s,
    (∀ w idx task err ret,
       pool s !! w = Some (InExecute idx task err ret) → Execute_call s0 t0 idx task err ret)
    ∧ (∀ w idx id err,
         ORecord w idx id err ∈ trace s →
         ∃ task ret, id = GetID task ∧ Execute_call s0 t0 idx task err ret ∧ ret ≤ now s))).
  { split; [done|]. intros ???? Hin. by apply elem_of_nil in Hin. }
  intros e s s' Hs (Hpool & Htr) Hstep.
  destruct (run_static s Hs) as (_ & _ & _ & Hctx & Hnow).
  assert (∀ w g', (∀ idx task err ret, g' ≠ InExecute idx task err ret) →
            ∀ w' idx task err ret,
              <[w := g']> (pool s) !! w' = Some (InExecute idx task err ret) →
              Execute_call s0 t0 idx task err ret) as Hother.
  { intros w g' Hg w' idx task err ret [(_ & -> & _)|[_ Hl]]%list_lookup_insert_Some;
      [by destruct (Hg idx task err ret) | by eapply Hpool]. }
  assert (∀ o, (∀ w idx id err, o ≠ ORecord w idx id err) →
            ∀ w idx id err, ORecord w idx id err ∈ trace s ++ [o] →
              ∃ task ret, id = GetID task ∧ Execute_call s0 t0 idx task err ret
                          ∧ ret ≤ now s) as Hseen.
  { intros o Ho w idx id err [Hin|Hin%list_elem_of_singleton]%elem_of_app;
      [by eapply Htr | by destruct (Ho w idx id err)]. }
  destruct Hstep as [| | |w o s Hw _|w o s idx task rest Hw _
                     |w o s idx task Hw _|w o s idx task Hw HD
                     |w o s idx task err ret Hw Hret|d s Hd];
    simpl.
  - split; [|done]. intros w' idx task err ret [[_ Hl]|[_ [=]]]%lookup_snoc_Some.
    by eapply Hpool.
  - done.
  - split; [done | by apply Hseen].
  - split; [by apply Hother | by apply Hseen].
  - split; [by apply Hother | by apply Hseen].
  - split; [by apply Hother | by apply Hseen].
  - split; [|by apply Hseen].
    intros w' idx' task' err ret
      [(_ & [= <- <- <- <-] & _)|[_ Hl]]%list_lookup_insert_Some; [|by eapply Hpool].
    destruct (run_held s Hs _ _ _ Hw) as [Htask _].
    exists (now s), o. rewrite <- Hctx. repeat split; try done.
    by destruct (Execute task (ctx s) (now s) o).
  - split; [by apply Hother|].
    intros w' idx' id err' [Hin|[= -> -> -> ->]%list_elem_of_singleton]%elem_of_app;
      [by eapply Htr|].
    exists task, ret. split; [done|]. split; [by eapply Hpool | done].
  - split; [done|]. intros w idx id err Hin.
    destruct (Htr _ _ _ _ Hin) as (task & ret & ? & ? & ?).
    exists task, ret. repeat split; try done. lia.
Qed.

(** Hence every write is for a task of the batch, under its identifier, of
    what an [Execute] of that task returned; so is every [Execute] under
    way. *)
Lemma run_from_Execute (s : state) :
  reachable s0 t0 s →
  (∀ w idx id err, ORecord w idx id err ∈ trace s → from_Execute s0 t0 idx id err)
  ∧ (∀ w idx task err ret,
       pool s !! w = Some (InExecute idx task err ret) →
       from_Execute s0 t0 idx (GetID task) err).
Proof.
  intros Hs. destruct (run_calls s Hs) as [Hpool Htr]. split.
  - intros w idx id err Hin.
    destruct (Htr _ _ _ _ Hin) as (task & ret & -> & (t & o & Htask & _ & HD & Hcall) & _).
    exists task, t, o. by rewrite Hcall.
  - intros w idx task err ret Hw.
    destruct (Hpool _ _ _ _ _ Hw) as (t & o & Htask & _ & HD & Hcall).
    exists task, t, o. by rewrite Hcall.
Qed.

(** The worker that calls [Execute] on an item is one that received it, and
    it received it while the context of the run was not done. *)
Lemma run_execute_by_receiver (s : state) :
  reachable s0 t0 s →
  ∀ w idx, OExecute w idx ∈ trace s →
    ∃ at_, ODequeue w idx at_ ∈ trace s ∧ context.Done (ctx s) at_ = false.
Proof.
  revert s.
  apply (run_ind s0 t0 (λ s, ∀ w idx, OExecute w idx ∈ trace s →
           ∃ at_, ODequeue w idx at_ ∈ trace s ∧ context.Done (ctx s) at_ = false));
    [by intros w idx Hin; apply elem_of_nil in Hin|].
  intros e s s' Hs IH Hstep.
  assert (∀ o, (∀ w idx, o = OExecute w idx →
                  ∃ at_, ODequeue w idx at_ ∈ trace s ∧ context.Done (ctx s) at_ = false) →
            ∀ w idx, OExecute w idx ∈ trace s ++ [o] →
              ∃ at_, ODequeue w idx at_ ∈ trace s ++ [o]
                     ∧ context.Done (ctx s) at_ = false) as Hseen.
  { intros o Ho w idx [Hin|Hin%list_elem_of_singleton]%elem_of_app.
    - destruct (IH _ _ Hin) as (at_ & ? & ?). exists at_. split; [|done].
      apply elem_of_app. by left.
    - destruct (Ho w idx) as (at_ & ? & ?); [done|]. exists at_. split; [|done].
      apply elem_of_app. by left. }
  destruct Hstep as [| | | | | |w o s idx task Hw HD| |]; simpl;
    try (by apply IH); try (by apply Hseen).
  apply Hseen. intros w' idx' [= <- <-].
  destruct (run_held s Hs _ _ _ Hw) as (_ & at_ & Hin & Hat).
  exists at_. split; [done|].
  destruct (context.Done (ctx s) at_) eqn:E; [|done].
  by rewrite (Done_mono _ _ _ Hat E) in HD.
Qed.

(** A worker inside [Execute] has called it, and a result is written for an
    item by the worker that called [Execute] on it, after that call. *)
Lemma run_record_by_caller (s : state) :
  reachable s0 t0 s →
  (∀ w idx task err ret,
     pool s !! w = Some (InExecute idx task err ret) → OExecute w idx ∈ trace s)
  ∧ (∀ tr1 tr2 w idx id err,
       trace s = tr1 ++ ORecord w idx id err :: tr2 → OExecute w idx ∈ tr1).
Proof.
  revert s.
  apply (run_ind s0 t0 (λ s,
    (∀ w idx task err ret,
       pool s !! w = Some (InExecute idx task err ret) → OExecute w idx ∈ trace s)
    ∧ (∀ tr1 tr2 w idx id err,
         trace s = tr1 ++ ORecord w idx id err :: tr2 → OExecute w idx ∈ tr1))).
  { split; [done|]. intros [|??] ????? Heq; done. }
  intros e s s' Hs (Hpool & Htr) Hstep.
  assert (∀ o, (∀ w idx id err, o = ORecord w idx id err → OExecute w idx ∈ trace s) →
            ∀ tr1 tr2 w idx id err,
              trace s ++ [o] = tr1 ++ ORecord w idx id err :: tr2 →
              OExecute w idx ∈ tr1) as Hsnoc.
  { intros o Ho tr1 tr2 w idx id err Heq. symmetry in Heq.
    apply split_snoc in Heq as [(_ & -> & Hx)|(tr2' & _ & Heq)];
      [by apply (Ho w idx id err) | by eapply Htr]. }
  assert (∀ w g' o, (∀ idx task err ret, g' = InExecute idx task err ret →
                       o = OExecute w idx) →
            ∀ w' idx task err ret,
              <[w := g']> (pool s) !! w' = Some (InExecute idx task err ret) →
              OExecute w' idx ∈ trace s ++ [o]) as Hin.
  { intros w g' o Hg w' idx task err ret [(<- & -> & _)|[_ Hl]]%list_lookup_insert_Some.
    - rewrite (Hg _ _ _ _ eq_refl). apply elem_of_app. right. by left.
    - apply elem_of_app. left. by eapply Hpool. }
  destruct Hstep as [| | |w o s Hw _|w o s idx task rest Hw _
                     |w o s idx task Hw _|w o s idx task Hw _
                     |w o s idx task err ret Hw _|];
    simpl.
  - split; [|done]. intros w' idx task err ret [[_ Hl]|[_ [=]]]%lookup_snoc_Some.
    by eapply Hpool.
  - done.
  - split; [|by apply Hsnoc]. intros w idx task err ret Hw.
    apply elem_of_app. left. by eapply Hpool.
  - split; [by apply Hin | by apply Hsnoc].
  - split; [by apply Hin | by apply Hsnoc].
  - split; [by apply Hin | by apply Hsnoc].
  - split; [apply Hin; by intros ???? [= <- _ _ _] | by apply Hsnoc].
  - split; [by apply Hin|]. apply Hsnoc. intros w' idx' id' err' [= <- <- _ _].
    by eapply Hpool.
  - done.
Qed.

(** From here on the scheduler is one whose [WaitGroup] counter is zero
    when [Run] is called, as it is after [NewTaskScheduler] and after
    every return of [Run]. *)
Hypothesis Hwg : wg s0 = 0.

(** The [WaitGroup] counts the workers that have not returned; the workers
    are started one by one until there are [workerCount] of them; and when
    [Run] has returned none of them is left. *)
Lemma run_pool (s : state) :
  reachable s0 t0 s →
  wg (sch s) = Z.of_nat (live (pool s))
  ∧ match pc s with
    | Spawning i => Z.of_nat (length (pool s)) = i ∧ i ≤ Z.max 0 (workerCount s0)
    | Waiting => length (pool s) = Z.to_nat (workerCount s0)
    | Returned => length (pool s) = Z.to_nat (workerCount s0) ∧ live (pool s) = O
    end.
Proof.
  revert s. apply run_ind; [simpl; split; [done | lia]|].
  intros e s s' Hs (Hlive & Hpc) Hstep.
  destruct (run_static s Hs) as (_ & _ & Hwc & _ & _).
  destruct Hstep as [s i Hi Hlt|s i Hi Hge|s Hi Hz|w o s Hw _|w o s idx task rest Hw _
                     |w o s idx task Hw _|w o s idx task Hw _
                     |w o s idx task err ret Hw _|];
    simpl.
  1: { rewrite Hi in Hpc. rewrite live_app, length_app. simpl. lia. }
  1: { rewrite Hi in Hpc. split; [done | lia]. }
  1: { rewrite Hi in Hpc. split; [done|]. split; [done | lia]. }
  6: done.
  all: match goal with
       | H : pool _ !! _ = Some _ |- context [<[_ := ?g']> (pool _)] =>
           pose proof (live_insert _ _ _ g' H) as Hl; simpl in Hl;
           rewrite length_insert; (split; [lia|]);
           (destruct (pc s); [done | done |]); destruct Hpc as [_ H0];
           by pose proof (live_0 _ _ _ H0 H)
       end.
Qed.

(** A worker that has returned has its return in the trace; the return of
    [Run] is in the trace when [Run] has returned, only then, and it is the
    last thing in it. *)
Lemma run_exits (s : state) :
  reachable s0 t0 s →
  (∀ w, pool s !! w = Some Exited → w ∈ exited (trace s))
  ∧ match pc s with
    | Returned => ∃ tr, trace s = tr ++ [OReturn] ∧ OReturn ∉ tr
    | _ => OReturn ∉ trace s
    end.
Proof.
  revert s. apply run_ind; [split; [done | apply not_elem_of_nil]|].
  intros e s s' Hs (Hex & Hret) Hstep.
  destruct (run_pool s Hs) as (_ & Hpc).
  assert (∀ w g, g ≠ Exited → pool s !! w = Some g → pc s ≠ Returned) as Hbusy.
  { intros w g Hg Hw Hr. rewrite Hr in Hpc. destruct Hpc as [_ H0].
    by pose proof (live_0 _ _ _ H0 Hw). }
  assert (∀ w g o, g ≠ Exited → pool s !! w = Some g → o ≠ OReturn →
            match pc s with
            | Returned => ∃ tr, trace s ++ [o] = tr ++ [OReturn] ∧ OReturn ∉ tr
            | _ => OReturn ∉ trace s ++ [o]
            end) as Hnoret.
  { intros w g o Hg Hw Ho. pose proof (Hbusy w g Hg Hw).
    destruct (pc s); [| |done]; intros [?|?%list_elem_of_singleton]%elem_of_app; done. }
  assert (∀ w g, pool s !! w = Some g →
            ∀ w', <[w := Exited]> (pool s) !! w' = Some Exited →
              w' ∈ exited (trace s) ++ [w]) as Hgone.
  { intros w g Hw w' [(-> & _ & _)|[_ Hl]]%list_lookup_insert_Some; apply elem_of_app;
      [right; by apply list_elem_of_singleton | left; by apply Hex]. }
  assert (∀ w g', g' ≠ Exited →
            ∀ w', <[w := g']> (pool s) !! w' = Some Exited → w' ∈ exited (trace s))
    as Hstay.
  { intros w g' Hg w' [(_ & -> & _)|[_ Hl]]%list_lookup_insert_Some; [done | by apply Hex]. }
  destruct Hstep as [s i Hi Hlt|s i Hi Hge|s Hi Hz|w o s Hw _|w o s idx task rest Hw _
                     |w o s idx task Hw _|w o s idx task Hw _
                     |w o s idx task err ret Hw _|];
    simpl; rewrite ?exited_app; simpl; rewrite ?app_nil_r.
  - rewrite Hi in Hret. split; [|done].
    intros w [[_ Hl]|[_ [=]]]%lookup_snoc_Some. by apply Hex.
  - rewrite Hi in Hret. done.
  - rewrite Hi in Hret. split; [done|]. by exists (trace s).
  - split; [by eapply Hgone | by eapply (Hnoret w AtRange)].
  - split; [by apply Hstay | by eapply (Hnoret w AtRange)].
  - split; [by eapply Hgone | by eapply (Hnoret w (AtSelect idx task))].
  - split; [by apply Hstay | by eapply (Hnoret w (AtSelect idx task))].
  - split; [by apply Hstay | by eapply (Hnoret w (InExecute idx task err ret))].
  - done.
Qed.

End run.

(** * A run returns *)

Lemma load_app (t : Z) (gs gs' : list goroutine) :
  load t (gs ++ gs') = (load t gs + load t gs')%nat.
Proof. induction gs as [|g gs IH]; simpl; [done | lia]. Qed.

Lemma load_insert (t : Z) (gs : list goroutine) (w : nat) (g g' : goroutine) :
  gs !! w = Some g →
  (load t (<[w := g']> gs) + goroutine_weight t g = load t gs + goroutine_weight t g')%nat.
Proof.
  intros Hw. pose proof (lookup_lt_Some _ _ _ Hw) as Hlt.
  rewrite <- (take_drop_middle gs w g Hw) at 2.
  rewrite insert_take_drop by done.
  rewrite !load_app. simpl. lia.
Qed.

Lemma goroutine_weight_mono (t t' : Z) (g : goroutine) :
  t ≤ t' → (goroutine_weight t' g ≤ goroutine_weight t g)%nat.
Proof.
  intros Ht. destruct g as [|idx task|idx task err ret|]; simpl; [lia | lia | | lia].
  destruct (Z.leb_spec ret t), (Z.leb_spec ret t'); lia.
Qed.

Lemma load_mono (t t' : Z) (gs : list goroutine) :
  t ≤ t' → (load t' gs ≤ load t gs)%nat.
Proof.
  intros Ht. induction gs as [|g gs IH]; simpl; [done|].
  pose proof (goroutine_weight_mono t t' g Ht). lia.
Qed.

(** Every step of a goroutine brings the run nearer to its end. *)
Lemma transition_measure (e : event) (s s' : state) :
  transition e s s' → (∀ d, e ≠ Tick d) → (measure s' < measure s)%nat.
Proof.
  intros Hstep Hnotick. unfold measure.
  destruct Hstep as [s i Hi Hlt|s i Hi Hge|s Hi Hz|w o s Hw Hq|w o s idx task rest Hw Hq
                     |w o s idx task Hw _|w o s idx task Hw _
                     |w o s idx task err ret Hw Hret|d s _];
    simpl; rewrite ?Hi, ?Hq; simpl.
  - rewrite load_app. simpl.
    replace (Z.to_nat (workerCount (sch s) - i))
      with (S (Z.to_nat (workerCount (sch s) - (i + 1)))) by lia. lia.
  - lia.
  - lia.
  - pose proof (load_insert (now s) _ _ _ Exited Hw) as Hl. simpl in Hl. lia.
  - pose proof (load_insert (now s) _ _ _ (AtSelect idx task) Hw) as Hl. simpl in Hl. lia.
  - pose proof (load_insert (now s) _ _ _ Exited Hw) as Hl. simpl in Hl. lia.
  - pose proof (load_insert (now s) _ _ _
                  (InExecute idx task (Execute task (ctx s) (now s) o).1
                     (Execute task (ctx s) (now s) o).2) Hw) as Hl.
    simpl in Hl. destruct (_ <=? now s) in Hl; lia.
  - pose proof (load_insert (now s) _ _ _ AtRange Hw) as Hl. simpl in Hl.
    destruct (Z.leb_spec ret (now s)); lia.
  - by destruct (Hnotick d).
Qed.

Lemma all_blocked_cons (t : Z) (g : goroutine) (gs : list goroutine) :
  all_blocked t (g :: gs) → all_blocked t [g] ∧ all_blocked t gs.
Proof.
  intros H. split.
  - intros [|w] g' Hw; [apply (H O g' Hw) | done].
  - intros w g' Hw. apply (H (S w) g' Hw).
Qed.

(** When the workers that are left all wait for an [Execute] to return, time
    passes up to the first return, and one of them can then go. *)
Lemma next_return_load (t : Z) (gs : list goroutine) :
  all_blocked t gs →
  match next_return gs with
  | Some r => t < r ∧ (load r gs < load t gs)%nat
  | None => live gs = O
  end.
Proof.
  induction gs as [|g gs IH]; intros Hb; [done|].
  apply all_blocked_cons in Hb as [Hg Hgs]. specialize (IH Hgs).
  specialize (Hg O g eq_refl).
  destruct g as [|idx task|idx task err ret|]; simpl; [done | done | |].
  - destruct (next_return gs) as [r|].
    + destruct IH as [Hr Hl].
      destruct (Z.leb_spec ret (Z.min ret r)), (Z.leb_spec ret t); try lia.
      * pose proof (load_mono t (Z.min ret r) gs ltac:(lia)). lia.
      * replace (Z.min ret r) with r by lia. lia.
    + rewrite Z.leb_refl. destruct (Z.leb_spec ret t); [lia|].
      pose proof (load_mono t ret gs ltac:(lia)). lia.
  - destruct (next_return gs) as [r|]; [|done]. lia.
Qed.

Lemma first_enabled_Some (o : oracle) (s s' : state) (cs : list nat) :
  first_enabled o s cs = Some s' → ∃ c, c ∈ cs ∧ attempt o s c = Some s'.
Proof.
  induction cs as [|c cs IH]; simpl; [done|].
  destruct (attempt o s c) as [s1|] eqn:E.
  - intros [= <-]. exists c. split; [left | done].
  - intros (c' & Hc' & Ha)%IH. exists c'. split; [by right | done].
Qed.

Lemma first_enabled_None (o : oracle) (s : state) (cs : list nat) :
  first_enabled o s cs = None → ∀ c, c ∈ cs → attempt o s c = None.
Proof.
  induction cs as [|c cs IH]; simpl; [by intros _ c Hc; apply elem_of_nil in Hc|].
  destruct (attempt o s c) as [s1|] eqn:E; [done|].
  intros Hcs c' [->|Hc']%elem_of_cons; [done | by apply IH].
Qed.

Lemma attempt_transition (o : oracle) (s s' : state) (c : nat) :
  attempt o s c = Some s' → ∃ e, transition e s s' ∧ ∀ d, e ≠ Tick d.
Proof.
  destruct c as [|w]; intros H; [exists Main | exists (Worker w o)];
    (split; [by apply step_transition | done]).
Qed.

(** When neither the caller nor a worker can go, the workers are blocked. *)
Lemma nobody_enabled (o : oracle) (s : state) :
  first_enabled o s (seq 0 (S (length (pool s)))) = None →
  Run_step s = None ∧ all_blocked (now s) (pool s).
Proof.
  intros Hnone. pose proof (first_enabled_None _ _ _ Hnone) as Hall. split.
  - apply (Hall O). apply elem_of_seq. lia.
  - intros w g Hw. pose proof (lookup_lt_Some _ _ _ Hw) as Hlt.
    specialize (Hall (S w)). simpl in Hall. unfold worker in Hall. rewrite Hw in Hall.
    assert (S w ∈ seq 0 (S (length (pool s)))) as Hin by (apply elem_of_seq; lia).
    specialize (Hall Hin).
    destruct g as [|idx task|idx task err ret|];
      [| |by destruct (Z.leb_spec ret (now s))|done].
    + by destruct (taskChan s) as [|[idx task] rest].
    + by destruct (context.Done (ctx s) (now s)).
Qed.

(** A step the policy makes is a step of the run. *)
Lemma next_step (p : policy) (k : nat) (s s' : state) :
  next p k s = Some s' → ∃ e, step e s = Some s'.
Proof.
  unfold next. destruct (attempt _ s (choose p k)) as [s1|] eqn:E1.
  - intros [= <-]. destruct (choose p k) as [|w];
      [by exists Main | by exists (Worker w (draw p k))].
  - destruct (first_enabled _ s _) as [s1|] eqn:E2.
    + intros [= <-]. apply first_enabled_Some in E2 as ([|w] & _ & Ha);
        [by exists Main | by exists (Worker w (draw p k))].
    + destruct (next_return (pool s)) as [r|]; simpl; [|done].
      intros H. by exists (Tick (r - now s)).
Qed.

Section run_returns.

Context (s0 : TaskScheduler) (t0 : Z).
Hypothesis Hwg : wg s0 = 0.

(** Until [Run] has returned, the policy finds a step to make. *)
Lemma next_progress (p : policy) (k : nat) (s : state) :
  reachable s0 t0 s → pc s ≠ Returned → is_Some (next p k s).
Proof.
  intros Hs Hpc. unfold next.
  destruct (attempt _ s (choose p k)) as [s1|]; [done|].
  destruct (first_enabled _ s _) as [s1|] eqn:E; [done|].
  apply nobody_enabled in E as [Hmain Hblocked].
  destruct (run_pool s0 t0 Hwg s Hs) as [Hlive _].
  pose proof (next_return_load _ _ Hblocked) as Hr.
  destruct (next_return (pool s)) as [r|]; simpl.
  - unfold tick. destruct (Z.ltb_spec 0 (r - now s)); [done | lia].
  - unfold Run_step in Hmain. destruct (pc s); [by destruct (_ <? _) | | done].
    rewrite Hlive, Hr in Hmain. done.
Qed.

(** Every step the policy makes brings the run nearer to its end. *)
Lemma next_measure (p : policy) (k : nat) (s s' : state) :
  next p k s = Some s' → (measure s' < measure s)%nat.
Proof.
  unfold next. destruct (attempt _ s (choose p k)) as [s1|] eqn:E1.
  - intros [= <-]. apply attempt_transition in E1 as (e & He & Hne).
    by eapply transition_measure.
  - destruct (first_enabled _ s _) as [s1|] eqn:E2.
    + intros [= <-]. apply first_enabled_Some in E2 as (c & _ & Ha).
      apply attempt_transition in Ha as (e & He & Hne).
      by eapply transition_measure.
    + apply nobody_enabled in E2 as [_ Hblocked].
      pose proof (next_return_load _ _ Hblocked) as Hr.
      destruct (next_return (pool s)) as [r|]; simpl; [|done].
      unfold tick. destruct (Z.ltb_spec 0 (r - now s)); [|done].
      intros [= <-]. unfold measure. simpl.
      replace (now s + (r - now s)) with r by lia. lia.
Qed.

(** With fuel for the steps that are left, the run is driven to the return
    of [Run]. *)
Lemma drive_returns (p : policy) (fuel k : nat) (s : state) :
  reachable s0 t0 s → (measure s ≤ fuel)%nat →
  ∃ s', drive p fuel k s = Some s' ∧ reachable s0 t0 s' ∧ pc s' = Returned.
Proof.
  revert k s. induction fuel as [|fuel IH]; intros k s Hs Hm.
  - assert (pc s = Returned) as Hpc.
    { unfold measure in Hm. destruct (pc s); simpl in Hm; [lia | lia | done]. }
    exists s. simpl. by rewrite Hpc.
  - destruct (decide (pc s = Returned)) as [Hpc|Hpc].
    { exists s. simpl. by rewrite Hpc. }
    destruct (next_progress p k s Hs Hpc) as [s1 Hnext].
    pose proof (next_measure _ _ _ _ Hnext) as Hlt.
    destruct (next_step _ _ _ _ Hnext) as [e He].
    destruct (IH (S k) s1) as (s' & Hd & Hs' & Hret);
      [by eapply reachable_step | lia |].
    exists s'. simpl. rewrite Hnext. simpl.
    destruct (pc s); [done | done | by destruct Hpc].
Qed.

(** [Run] returns, whatever the policy. *)
Lemma Run_returns (p : policy) :
  ∃ s', Run p s0 t0 = Some s' ∧ reachable s0 t0 s' ∧ pc s' = Returned.
Proof.
  apply drive_returns; [apply reachable_begin|].
  unfold measure, budget, Run_begin. simpl. rewrite queue_length. lia.
Qed.

End run_returns.

(** * Schedulers as they are built *)

Lemma submit_snoc (s : TaskScheduler) (batch : list Task) (task : Task) :
  submit s (batch ++ [task]) = AddTask (submit s batch) task.
Proof. unfold submit. by rewrite foldl_app. Qed.

(** Submitting a batch appends it to the task list and changes nothing else. *)
Lemma submit_fields (s : TaskScheduler) (batch : list Task) :
  tasks (submit s batch) = tasks s ++ batch
  ∧ wg (submit s batch) = wg s
  ∧ results (submit s batch) = results s
  ∧ timeout (submit s batch) = timeout s
  ∧ workerCount (submit s batch) = workerCount s.
Proof.
  induction batch as [|task batch IH] using rev_ind.
  - simpl. by rewrite app_nil_r.
  - rewrite submit_snoc. simpl. destruct IH as (-> & -> & -> & -> & ->).
    by rewrite (assoc_L (++)).
Qed.

(** * Reading a trace: membership *)

Lemma elem_of_dequeued_when (late : bool) (c : context.Context) (tr : list obs) (idx : nat) :
  idx ∈ dequeued_when late c tr ↔
    ∃ w at_, ODequeue w idx at_ ∈ tr ∧ context.Done c at_ = late.
Proof.
  unfold dequeued_when. rewrite list_elem_of_omap. split.
  - intros ([w idx' at_| | | |] & Hin & Hf); try done.
    case_bool_decide; [|done]. injection Hf as ->. eauto.
  - intros (w & at_ & Hin & HD). exists (ODequeue w idx at_). split; [done|].
    by rewrite bool_decide_eq_true_2.
Qed.

Lemma elem_of_dequeued (tr : list obs) (idx : nat) :
  idx ∈ dequeued tr ↔ ∃ w at_, ODequeue w idx at_ ∈ tr.
Proof.
  unfold dequeued. rewrite list_elem_of_omap. split.
  - intros ([w idx' at_| | | |] & Hin & Hf); try done. injection Hf as ->. eauto.
  - intros (w & at_ & Hin). by exists (ODequeue w idx at_).
Qed.

Lemma elem_of_executed (tr : list obs) (idx : nat) :
  idx ∈ executed tr ↔ ∃ w, OExecute w idx ∈ tr.
Proof.
  unfold executed. rewrite list_elem_of_omap. split.
  - intros ([|w idx'| | |] & Hin & Hf); try done. injection Hf as ->. eauto.
  - intros (w & Hin). by exists (OExecute w idx).
Qed.

Lemma elem_of_recorded (tr : list obs) (idx : nat) :
  idx ∈ recorded tr ↔ ∃ w id err, ORecord w idx id err ∈ tr.
Proof.
  unfold recorded. rewrite list_elem_of_omap. split.
  - intros ([| |w idx' id err| |] & Hin & Hf); try done. injection Hf as ->. eauto.
  - intros (w & id & err & Hin). by exists (ORecord w idx id err).
Qed.

Lemma elem_of_writes (tr : list obs) (id : string) (err : Outcome) :
  (id, err) ∈ writes tr ↔ ∃ w idx, ORecord w idx id err ∈ tr.
Proof.
  unfold writes. rewrite list_elem_of_omap. split.
  - intros ([| |w idx id' err'| |] & Hin & Hf); try done. injection Hf as -> ->. eauto.
  - intros (w & idx & Hin). by exists (ORecord w idx id err).
Qed.

Lemma elem_of_exited (tr : list obs) (w : nat) :
  w ∈ exited tr ↔ OExit w ∈ tr.
Proof.
  unfold exited. rewrite list_elem_of_omap. split.
  - intros ([| | |w'|] & Hin & Hf); try done. by injection Hf as ->.
  - intros Hin. by exists (OExit w).
Qed.

(** The identifiers a map holds after a sequence of writes. *)
Lemma dom_apply_writes (m : gmap string Outcome) (ws : list (string * Outcome)) :
  dom (apply_writes m ws) = dom m ∪ list_to_set ws.*1.
Proof.
  revert m. induction ws as [|[id err] ws IH]; intros m; simpl.
  - by rewrite (right_id_L ∅ (∪)).
  - unfold apply_writes in *. simpl.
    rewrite IH, dom_insert_L, (comm_L (∪) {[id]}). by rewrite (assoc_L (∪)).
Qed.

(** * What is executed, and what is written *)

(** Of the items a list maps to a value, at most one is mapped to a value
    that occurs once among the values. *)
Lemma omap_NoDup_inj {A B : Type} (f : A → option B) (l : list A) (x y : A) (k : B) :
  NoDup (omap f l) → x ∈ l → y ∈ l → f x = Some k → f y = Some k → x = y.
Proof.
  induction l as [|a l IH]; intros Hnd Hx Hy Hfx Hfy; [by apply elem_of_nil in Hx|].
  assert (∀ z, z ∈ l → f z = Some k → f a = Some k → False) as Hclash.
  { intros z Hz Hfz Hfa. simpl in Hnd. rewrite Hfa in Hnd.
    apply NoDup_cons in Hnd as [Hk _]. apply Hk, list_elem_of_omap. eauto. }
  apply elem_of_cons in Hx as [->|Hx], Hy as [->|Hy]; [done | | |].
  - by destruct (Hclash y).
  - by destruct (Hclash x).
  - apply IH; try done. simpl in Hnd. destruct (f a); [by apply NoDup_cons in Hnd as [_ ?] | done].
Qed.

(** What is executed was received, each position once. *)
Lemma executed_received (s0 : TaskScheduler) (t0 : Z) (s : state) :
  reachable s0 t0 s →
  NoDup (dequeued (trace s)) ∧ NoDup (executed (trace s))
  ∧ executed (trace s) ⊆+ dequeued (trace s).
Proof.
  intros Hs. destruct (run_queue s0 t0 s Hs) as (n & _ & Hd & _).
  destruct (run_executed s0 t0 s Hs) as [Hsub _].
  assert (NoDup (dequeued (trace s))) as Hnd by (rewrite Hd; apply NoDup_seq).
  assert (executed (trace s) ⊆+ dequeued (trace s)) as Hsub'.
  { etrans; [|exact Hsub]. by apply submseteq_inserts_r. }
  repeat split; [done | by eapply submseteq_NoDup | done].
Qed.

(** No result is written twice for an item. *)
Lemma recorded_NoDup (s0 : TaskScheduler) (t0 : Z) (s : state) :
  reachable s0 t0 s → NoDup (recorded (trace s)).
Proof.
  intros Hs. destruct (executed_received s0 t0 s Hs) as (_ & Hnd & _).
  destruct (run_executed s0 t0 s Hs) as [_ Hperm]. rewrite Hperm in Hnd.
  by apply NoDup_app in Hnd as [? _].
Qed.

(** The value a map holds under an identifier that the writes do not touch. *)
Lemma apply_writes_lookup_ne (m : gmap string Outcome) (ws : list (string * Outcome))
    (id : string) :
  id ∉ ws.*1 → apply_writes m ws !! id = m !! id.
Proof.
  revert m. induction ws as [|[id' err] ws IH]; intros m Hid; [done|].
  simpl in Hid. apply not_elem_of_cons in Hid as [Hne Hid].
  unfold apply_writes in *. simpl. rewrite (IH _ Hid). by apply lookup_insert_ne.
Qed.

(** The last write under an identifier is what the map holds under it. *)
Lemma apply_writes_last (m : gmap string Outcome) (ws1 ws2 : list (string * Outcome))
    (id : string) (err : Outcome) :
  id ∉ ws2.*1 → apply_writes m (ws1 ++ (id, err) :: ws2) !! id = Some err.
Proof.
  intros Hid. unfold apply_writes. rewrite foldl_app. simpl.
  fold (apply_writes (<[id:=err]> (foldl (λ m w, <[w.1:=w.2]> m) m ws1)) ws2).
  rewrite (apply_writes_lookup_ne _ _ _ Hid). apply lookup_insert_eq.
Qed.

(** What a map holds after a sequence of writes was written by one of
    them, or was there before. *)
Lemma apply_writes_lookup (m : gmap string Outcome) (ws : list (string * Outcome))
    (id : string) (err : Outcome) :
  apply_writes m ws !! id = Some err → (id, err) ∈ ws ∨ m !! id = Some err.
Proof.
  revert m. induction ws as [|[id' err'] ws IH]; intros m; simpl; [by right|].
  unfold apply_writes in *. simpl. intros [Hin|Hm]%IH; [left; by right|].
  destruct (decide (id' = id)) as [->|Hne].
  - rewrite lookup_insert_eq in Hm. injection Hm as ->. left. by left.
  - rewrite lookup_insert_ne in Hm by done. by right.
Qed.

(** Under an identifier that was written, a map holds what one of the writes
    under it put there. *)
Lemma apply_writes_written (m : gmap string Outcome) (ws : list (string * Outcome))
    (id : string) :
  id ∈ ws.*1 → ∃ err, (id, err) ∈ ws ∧ apply_writes m ws !! id = Some err.
Proof.
  induction ws as [|[id' err'] ws IH] using rev_ind; [by intros ?%elem_of_nil|].
  rewrite fmap_app. unfold apply_writes in *. rewrite foldl_app. simpl.
  intros Hin. destruct (decide (id' = id)) as [->|Hne].
  - exists err'. split; [apply elem_of_app; right; by left | apply lookup_insert_eq].
  - apply elem_of_app in Hin as [Hin|Hin%list_elem_of_singleton]; [|done].
    destruct (IH Hin) as (err & Herr & Hl). exists err.
    split; [apply elem_of_app; by left | by rewrite lookup_insert_ne].
Qed.

(** In a run, the last write under an identifier is what the result map
    holds under it. *)
Lemma run_last_write (s0 : TaskScheduler) (t0 : Z) (s : state)
    (tr1 tr2 : list obs) (w idx : nat) (id : string) (err : Outcome) :
  reachable s0 t0 s →
  trace s = tr1 ++ ORecord w idx id err :: tr2 →
  (∀ w' idx' err', ORecord w' idx' id err' ∉ tr2) →
  results (sch s) !! id = Some err.
Proof.
  intros Hs Htr Hlast.
  rewrite (run_results s0 t0 s Hs), Htr, writes_app. simpl.
  apply apply_writes_last.
  intros ([id' err'] & -> & (w' & idx' & Hin)%elem_of_writes)%list_elem_of_fmap.
  by apply (Hlast w' idx' err').
Qed.

(** In a run, under an identifier that was written the result map holds
    what one of the writes under it put there. *)
Lemma results_written (s0 : TaskScheduler) (t0 : Z) (s : state)
    (w idx : nat) (id : string) (err : Outcome) :
  reachable s0 t0 s → ORecord w idx id err ∈ trace s →
  ∃ w' idx' err', ORecord w' idx' id err' ∈ trace s ∧ results (sch s) !! id = Some err'.
Proof.
  intros Hs Hin.
  destruct (apply_writes_written (results s0) (writes (trace s)) id)
    as (err' & (w' & idx' & Hin')%elem_of_writes & Hl).
  { apply list_elem_of_fmap. exists (id, err). split; [done|]. apply elem_of_writes. eauto. }
  exists w', idx', err'. split; [done|]. by rewrite (run_results s0 t0 s Hs).
Qed.

(** With identifiers that are pairwise distinct, the result map holds under
    an identifier what was written under it. *)
Lemma results_unique_id (s0 : TaskScheduler) (t0 : Z) (s : state)
    (w idx : nat) (id : string) (err : Outcome) :
  reachable s0 t0 s → NoDup (GetID <$> tasks s0) →
  ORecord w idx id err ∈ trace s → results (sch s) !! id = Some err.
Proof.
  intros Hs Hnodup Hin.
  apply list_elem_of_split in Hin as (tr1 & tr2 & Htr).
  apply (run_last_write s0 t0 s tr1 tr2 w idx); [done | done |].
  intros w' idx' err' Hin'.
  assert (idx' = idx) as ->.
  { destruct (run_calls s0 t0 s Hs) as [_ Hrec].
    destruct (Hrec w idx id err) as (task & ? & Hid & (? & ? & Htask & _) & _).
    { rewrite Htr. apply elem_of_app. right. by left. }
    destruct (Hrec w' idx' id err') as (task' & ? & Hid' & (? & ? & Htask' & _) & _).
    { rewrite Htr. apply elem_of_app. right. by right. }
    apply (NoDup_lookup (GetID <$> tasks s0) idx' idx id Hnodup).
    - by rewrite list_lookup_fmap, Htask', Hid'.
    - by rewrite list_lookup_fmap, Htask, Hid. }
  pose proof (recorded_NoDup s0 t0 s Hs) as Hnd.
  rewrite Htr, recorded_app in Hnd. simpl in Hnd.
  apply NoDup_app in Hnd as (_ & _ & Hnd). apply NoDup_cons in Hnd as [Hnot _].
  apply Hnot, elem_of_recorded. eauto.
Qed.

(** When [Run] has returned, every call of [Execute] has had its result
    written, by the worker that made the call and after it. *)
Lemma returned_recorded (s0 : TaskScheduler) (t0 : Z) (s : state) (w idx : nat) :
  wg s0 = 0 → reachable s0 t0 s → pc s = Returned → OExecute w idx ∈ trace s →
  ∃ id err tr1 tr2, trace s = tr1 ++ ORecord w idx id err :: tr2 ∧ OExecute w idx ∈ tr1.
Proof.
  intros Hwg Hs Hret Hin.
  destruct (run_pool s0 t0 Hwg s Hs) as [_ Hpc]. rewrite Hret in Hpc.
  destruct (run_executed s0 t0 s Hs) as [_ Hperm].
  rewrite (in_flight_live_0 _ (proj2 Hpc)), app_nil_r in Hperm.
  assert (idx ∈ recorded (trace s)) as (w' & id & err & Hrec)%elem_of_recorded.
  { rewrite <- Hperm. apply elem_of_executed. eauto. }
  apply list_elem_of_split in Hrec as (tr1 & tr2 & Htr).
  pose proof (proj2 (run_record_by_caller s0 t0 s Hs) _ _ _ _ _ _ Htr) as Hcall.
  assert (OExecute w' idx ∈ trace s) as Hin'.
  { rewrite Htr. apply elem_of_app. by left. }
  destruct (executed_received s0 t0 s Hs) as (_ & Hne & _).
  pose proof (omap_NoDup_inj _ _ _ _ idx Hne Hin Hin' eq_refl eq_refl) as [= ->].
  by exists id, err, tr1, tr2.
Qed.

(** When [Run] has returned having called [Execute] on every task of a
    batch with pairwise distinct identifiers, the result map, empty at the
    start, has one entry for each task, under its identifier, holding what
    its [Execute] returned. *)
Lemma returned_complete (s0 : TaskScheduler) (t0 : Z) (s' : state) :
  wg s0 = 0 → results s0 = ∅ → NoDup (GetID <$> tasks s0) →
  reachable s0 t0 s' → pc s' = Returned →
  (∀ idx : nat, (idx < length (tasks s0))%nat → ∃ w, OExecute w idx ∈ trace s') →
  size (results (sch s')) = length (tasks s0)
  ∧ dom (results (sch s')) = list_to_set (GetID <$> tasks s0)
  ∧ ∀ idx task, tasks s0 !! idx = Some task →
      ∃ err ret,
        results (sch s') !! GetID task = Some err ∧ Execute_call s0 t0 idx task err ret.
Proof.
  intros Hwg Hres Hnodup Hs' Hpc Hall.
  destruct (run_calls s0 t0 s' Hs') as [_ Hrec].
  assert (∀ idx task, tasks s0 !! idx = Some task →
            ∃ err ret, results (sch s') !! GetID task = Some err
                       ∧ Execute_call s0 t0 idx task err ret) as Hentry.
  { intros idx task Hidx.
    destruct (Hall idx (lookup_lt_Some _ _ _ Hidx)) as (w & Hin).
    destruct (returned_recorded s0 t0 s' w idx Hwg Hs' Hpc Hin)
      as (id & err & tr1 & tr2 & Htr & _).
    assert (ORecord w idx id err ∈ trace s') as Hin'.
    { rewrite Htr. apply elem_of_app. right. by left. }
    destruct (Hrec _ _ _ _ Hin') as (task' & ret & -> & Hcall & _).
    pose proof Hcall as (_ & _ & Htask & _).
    rewrite Hidx in Htask. injection Htask as <-.
    exists err, ret. split; [|done].
    by apply (results_unique_id s0 t0 s' w idx). }
  assert (dom (results (sch s')) = list_to_set (GetID <$> tasks s0)) as Hdom.
  { apply set_eq. intros id. rewrite elem_of_dom, elem_of_list_to_set, list_elem_of_fmap.
    split.
    - intros [err Hl].
      rewrite (run_results s0 t0 s' Hs'), Hres in Hl.
      apply apply_writes_lookup in Hl as [(w & idx & Hin)%elem_of_writes|Hl]; [|done].
      destruct (Hrec _ _ _ _ Hin) as (task & ret & -> & (_ & _ & Htask & _) & _).
      exists task. split; [done|]. by eapply list_elem_of_lookup_2.
    - intros (task & -> & (idx & Hidx)%list_elem_of_lookup_1).
      destruct (Hentry idx task Hidx) as (err & _ & Hl & _). by exists err. }
  split; [|split; [done | exact Hentry]].
  rewrite <- size_dom, Hdom, size_list_to_set, length_fmap; done.
Qed.

(** * The claims about [Run] *)

(** C1, as amended: for a batch of [N] tasks with pairwise distinct
    identifiers, submitted to a new scheduler before [Run] is called, [Run]
    returns; and in whatever order the goroutines went, if every task was
    received and, at the [select] that follows its reception, the context of
    the run was found not done, so that [Execute] was called on it, the map
    returned has exactly [N] entries, one under the identifier of each task,
    holding what the [Execute] of that task returned. *)
Theorem Run_result_set_complete (workerCount : Z) (timeout : time.Duration)
    (batch : list Task) (t0 : Z) :
  NoDup (GetID <$> batch) →
  (∀ p, ∃ s', Run p (submit (NewTaskScheduler workerCount timeout) batch) t0 = Some s'
              ∧ reachable (submit (NewTaskScheduler workerCount timeout) batch) t0 s'
              ∧ pc s' = Returned)
  ∧ ∀ s', reachable (submit (NewTaskScheduler workerCount timeout) batch) t0 s' →
      pc s' = Returned →
      (∀ idx : nat, (idx < length batch)%nat → ∃ w, OExecute w idx ∈ trace s') →
      size (results (sch s')) = length batch
      ∧ dom (results (sch s')) = list_to_set (GetID <$> batch)
      ∧ ∀ idx task, batch !! idx = Some task →
          ∃ err ret,
            results (sch s') !! GetID task = Some err
            ∧ Execute_call (submit (NewTaskScheduler workerCount timeout) batch) t0
                idx task err ret.
Proof.
  intros Hnodup.
  set (s0 := submit (NewTaskScheduler workerCount timeout) batch).
  destruct (submit_fields (NewTaskScheduler workerCount timeout) batch)
    as (Hts & Hwg & Hres & _ & _).
  fold s0 in Hts, Hwg, Hres. simpl in Hts, Hwg, Hres.
  split.
  { intros p. apply (Run_returns s0 t0 Hwg p). }
  intros s' Hs' Hpc Hall. rewrite <- Hts.
  apply (returned_complete s0 t0 s' Hwg Hres); [by rewrite Hts | done | done |].
  by rewrite Hts.
Qed.

Lemma Run_result_set_complete_witness :
  size (results (sch (final one_worker_schedule (Run_begin one_worker 0)))) = 2%nat
  ∧ dom (results (sch (final one_worker_schedule (Run_begin one_worker 0)))) =
      list_to_set (GetID <$> two_tasks)
  ∧ ∀ idx task, two_tasks !! idx = Some task →
      ∃ err ret,
        results (sch (final one_worker_schedule (Run_begin one_worker 0))) !! GetID task =
          Some err
        ∧ Execute_call (submit (NewTaskScheduler 1 (1 * time.Second)) two_tasks) 0
            idx task err ret.
Proof.
  apply (proj2 (Run_result_set_complete 1 (1 * time.Second) two_tasks 0
                  ltac:(by apply (bool_decide_unpack _)))).
  - exists one_worker_schedule. vm_compute. reflexivity.
  - vm_compute. reflexivity.
  - intros [|[|idx]] Hidx.
    + exists O. vm_compute. repeat constructor.
    + exists O. vm_compute. repeat constructor.
    + simpl in Hidx. lia.
Defined.

(** C1 as stated fails: a task received before the deadline of the run is
    dropped when its worker comes to the [select] after the deadline.  Here
    the one task of the batch is received one nanosecond before the
    deadline, and [Run] returns an empty map. *)
Lemma Run_drops_task_received_in_time :
  ∃ s', exec slow_worker_schedule (Run_begin slow_worker 0) = Some s'
        ∧ pc s' = Returned
        ∧ NoDup (GetID <$> one_task)
        ∧ (∀ idx : nat, (idx < length one_task)%nat →
             ∃ w at_, ODequeue w idx at_ ∈ trace s' ∧ context.Done (ctx s') at_ = false)
        ∧ executed (trace s') = []
        ∧ results (sch s') = ∅
        ∧ size (results (sch s')) ≠ length one_task.
Proof.
  eexists. split; [vm_compute; reflexivity|].
  split; [reflexivity|]. split; [by apply (bool_decide_unpack _)|].
  split; [|split; [reflexivity | split; [reflexivity | discriminate]]].
  intros [|idx] Hidx; [|simpl in Hidx; lia].
  exists O, (100 * time.Millisecond - time.Nanosecond).
  split; [|reflexivity]. vm_compute. repeat constructor.
Qed.

(** C6: [Run] returns through [s.wg.Wait()] only.  While a worker has not
    returned, [Wait] does not let the caller through, an empty channel
    notwithstanding; and when [Run] has returned all [workerCount] workers were
    started and have returned, and the return is the last thing the run did.
    Every [Execute] that was called has then returned, and the worker that
    called it has written what it returned under the identifier of the task,
    after the call and before the return of [Run]; the result map holds under
    that identifier what the [Execute] of a task with that identifier
    returned, which is what this [Execute] returned unless a later write
    replaced it, as none does when the identifiers are pairwise distinct. *)
Theorem Run_returns_after_join (s0 : TaskScheduler) (t0 : Z) (s : state) :
  wg s0 = 0 → reachable s0 t0 s →
  ((∃ w g, pool s !! w = Some g ∧ g ≠ Exited) → pc s = Waiting → step Main s = None)
  ∧ (pc s = Returned →
     length (pool s) = Z.to_nat (workerCount s0)
     ∧ (∀ w g, pool s !! w = Some g → g = Exited ∧ OExit w ∈ trace s)
     ∧ (∀ w idx, OExecute w idx ∈ trace s →
          ∃ task err ret tr1 tr2,
            Execute_call s0 t0 idx task err ret ∧ ret ≤ now s
            ∧ trace s = tr1 ++ ORecord w idx (GetID task) err :: tr2
            ∧ OExecute w idx ∈ tr1 ∧ OReturn ∈ tr2
            ∧ (∃ idx' task' err' ret',
                 GetID task' = GetID task ∧ Execute_call s0 t0 idx' task' err' ret'
                 ∧ results (sch s) !! GetID task = Some err')
            ∧ ((∀ w' idx' err', ORecord w' idx' (GetID task) err' ∉ tr2) →
               results (sch s) !! GetID task = Some err)
            ∧ (NoDup (GetID <$> tasks s0) → results (sch s) !! GetID task = Some err))
     ∧ ∃ tr, trace s = tr ++ [OReturn] ∧ OReturn ∉ tr).
Proof.
  intros Hwg Hs.
  destruct (run_pool s0 t0 Hwg s Hs) as [Hlive Hpc].
  destruct (run_exits s0 t0 Hwg s Hs) as [Hex Hret].
  split.
  - intros (w & g & Hw & Hg) Hwait. simpl. unfold Run_step. rewrite Hwait.
    destruct (Z.eqb_spec (wg (sch s)) 0) as [Hz|]; [|done].
    destruct Hg. apply (live_0 (pool s) w); [lia | done].
  - intros Hr. rewrite Hr in Hpc, Hret. destruct Hpc as [Hlen H0].
    split; [done|]. split; [|split; [|done]].
    + intros w g Hw. split; [by apply (live_0 (pool s) w)|].
      apply elem_of_exited, Hex.
      by rewrite <- (live_0 (pool s) w g H0 Hw).
    + intros w idx Hin.
      destruct (returned_recorded s0 t0 s w idx Hwg Hs Hr Hin)
        as (id & err & tr1 & tr2 & Htr & Hbefore).
      assert (ORecord w idx id err ∈ trace s) as Hrec.
      { rewrite Htr. apply elem_of_app. right. by left. }
      destruct (proj2 (run_calls s0 t0 s Hs) _ _ _ _ Hrec) as (task & ret & -> & Hcall & Hle).
      exists task, err, ret, tr1, tr2.
      split; [done|]. split; [done|]. split; [done|]. split; [done|].
      split; [|split; [|split]].
      * destruct Hret as (tr & Htr' & _). rewrite Htr' in Htr. symmetry in Htr.
        apply split_snoc in Htr as [(_ & _ & [=])|(tr2' & -> & _)].
        apply elem_of_app. right. by left.
      * destruct (results_written s0 t0 s w idx (GetID task) err Hs Hrec)
          as (w' & idx' & err' & Hin' & Hl).
        destruct (proj2 (run_calls s0 t0 s Hs) _ _ _ _ Hin')
          as (task' & ret' & Hid & Hcall' & _).
        by exists idx', task', err', ret'.
      * intros Hlast. by apply (run_last_write s0 t0 s tr1 tr2 w idx).
      * intros Hnodup. by apply (results_unique_id s0 t0 s w idx).
Qed.

Lemma Run_returns_after_join_witness :
  step Main (final (take 4 one_worker_schedule) (Run_begin one_worker 0)) = None
  ∧ (length (pool (final one_worker_schedule (Run_begin one_worker 0))) =
       Z.to_nat (workerCount one_worker)
     ∧ (∀ w g, pool (final one_worker_schedule (Run_begin one_worker 0)) !! w = Some g →
          g = Exited ∧ OExit w ∈ trace (final one_worker_schedule (Run_begin one_worker 0)))
     ∧ (∀ w idx, OExecute w idx ∈ trace (final one_worker_schedule (Run_begin one_worker 0)) →
          ∃ task err ret tr1 tr2,
            Execute_call one_worker 0 idx task err ret
            ∧ ret ≤ now (final one_worker_schedule (Run_begin one_worker 0))
            ∧ trace (final one_worker_schedule (Run_begin one_worker 0)) =
                tr1 ++ ORecord w idx (GetID task) err :: tr2
            ∧ OExecute w idx ∈ tr1 ∧ OReturn ∈ tr2
            ∧ (∃ idx' task' err' ret',
                 GetID task' = GetID task ∧ Execute_call one_worker 0 idx' task' err' ret'
                 ∧ results (sch (final one_worker_schedule (Run_begin one_worker 0)))
                     !! GetID task = Some err')
            ∧ ((∀ w' idx' err', ORecord w' idx' (GetID task) err' ∉ tr2) →
               results (sch (final one_worker_schedule (Run_begin one_worker 0)))
                 !! GetID task = Some err)
            ∧ (NoDup (GetID <$> tasks one_worker) →
               results (sch (final one_worker_schedule (Run_begin one_worker 0)))
                 !! GetID task = Some err))
     ∧ ∃ tr, trace (final one_worker_schedule (Run_begin one_worker 0)) = tr ++ [OReturn]
             ∧ OReturn ∉ tr).
Proof.
  split.
  - apply (proj1 (Run_returns_after_join one_worker 0
                    (final (take 4 one_worker_schedule) (Run_begin one_worker 0))
                    eq_refl
                    ltac:(exists (take 4 one_worker_schedule); vm_compute; reflexivity))).
    + exists O, (InExecute 0 (Simple (NewSimpleTask "task-1" (500 * time.Millisecond)))
                   None (300 * time.Millisecond)).
      split; [vm_compute; reflexivity | discriminate].
    + vm_compute. reflexivity.
  - apply (proj2 (Run_returns_after_join one_worker 0
                    (final one_worker_schedule (Run_begin one_worker 0))
                    eq_refl
                    ltac:(exists one_worker_schedule; vm_compute; reflexivity))).
    vm_compute. reflexivity.
Defined.

(** C7, as amended: the result map has exactly one entry under an identifier
    that was written, and it holds what the last write under that identifier
    put there: the error that the [Execute] of the task that wrote last
    returned, whichever tasks wrote under that identifier before, and
    whichever of their [Execute] calls returned last. *)
Theorem results_last_write_wins (s0 : TaskScheduler) (t0 : Z) (s : state)
    (tr1 tr2 : list obs) (w idx : nat) (id : string) (err : Outcome) :
  reachable s0 t0 s →
  trace s = tr1 ++ ORecord w idx id err :: tr2 →
  (∀ w' idx' err', ORecord w' idx' id err' ∉ tr2) →
  results (sch s) !! id = Some err
  ∧ (∀ err', (id, err') ∈ map_to_list (results (sch s)) ↔ err' = err)
  ∧ ∃ task ret, id = GetID task ∧ Execute_call s0 t0 idx task err ret ∧ ret ≤ now s.
Proof.
  intros Hs Htr Hlast.
  pose proof (run_last_write s0 t0 s tr1 tr2 w idx id err Hs Htr Hlast) as Hl.
  split; [done|]. split.
  - intros err'. rewrite elem_of_map_to_list, Hl.
    split; [by intros [= <-] | by intros ->].
  - apply (proj2 (run_calls s0 t0 s Hs) w). rewrite Htr. apply elem_of_app. right. by left.
Qed.

Lemma results_last_write_wins_witness :
  results (sch (final two_workers_schedule (Run_begin two_workers 0))) !! "job" = Some None
  ∧ (∀ err', ("job", err') ∈
               map_to_list (results (sch (final two_workers_schedule (Run_begin two_workers 0))))
             ↔ err' = None)
  ∧ ∃ task ret, "job" = GetID task ∧ Execute_call two_workers 0 0 task None ret
                ∧ ret ≤ now (final two_workers_schedule (Run_begin two_workers 0)).
Proof.
  apply (results_last_write_wins two_workers 0
           (final two_workers_schedule (Run_begin two_workers 0))
           [ODequeue 0 0 0; OExecute 0 0; ODequeue 1 1 0; OExecute 1 1;
            ORecord 1 1 "job" (Some (ErrTimeout "job" (Some context.DeadlineExceeded)))]
           [OExit 0; OExit 1; OReturn] 0 0 "job" None).
  - exists two_workers_schedule. vm_compute. reflexivity.
  - vm_compute. reflexivity.
  - intros w' idx' err' Hin.
    apply elem_of_cons in Hin as [[=]|Hin].
    apply elem_of_cons in Hin as [[=]|Hin].
    apply elem_of_cons in Hin as [[=]|Hin].
    by apply elem_of_nil in Hin.
Defined.

(** C7 as stated fails: the entry need not be that of the task that finished
    last.  Two tasks under the identifier [job] are executed by two workers;
    the [Execute] of the first returns [nil] after 300ms, that of the second
    had returned its timeout error after 100ms; the worker of the second
    comes to write after the worker of the first, and the map returned holds
    the timeout error. *)
Lemma results_hold_first_finisher :
  pool (final (take 7 late_writer_schedule) (Run_begin two_workers 0)) =
    [InExecute 0 (Simple (NewSimpleTask "job" (500 * time.Millisecond)))
       None (300 * time.Millisecond);
     InExecute 1 (Simple (NewSimpleTask "job" (100 * time.Millisecond)))
       (Some (ErrTimeout "job" (Some context.DeadlineExceeded))) (100 * time.Millisecond)]
  ∧ ∃ s, exec late_writer_schedule (Run_begin two_workers 0) = Some s
         ∧ pc s = Returned
         ∧ dequeued (trace s) = [0; 1]%nat
         ∧ recorded (trace s) = [0; 1]%nat
         ∧ size (results (sch s)) = 1%nat
         ∧ results (sch s) !! "job" =
             Some (Some (ErrTimeout "job" (Some context.DeadlineExceeded))).
Proof.
  split; [vm_compute; reflexivity|].
  eexists. split; [vm_compute; reflexivity|].
  repeat split; vm_compute; reflexivity.
Qed.

(** C8: no submitted task is executed twice in a run.  Each position of the
    queue is received at most once, hence by one worker, and [Execute] is
    called at most once on it, by that worker; and what is executed is a
    position of the batch that was received. *)
Theorem Run_executes_at_most_once (s0 : TaskScheduler) (t0 : Z) (s : state) :
  reachable s0 t0 s →
  NoDup (dequeued (trace s)) ∧ NoDup (executed (trace s))
  ∧ (∀ idx, idx ∈ executed (trace s) →
       idx ∈ dequeued (trace s) ∧ (idx < length (tasks s0))%nat)
  ∧ (∀ w w' idx at_ at',
       ODequeue w idx at_ ∈ trace s → ODequeue w' idx at' ∈ trace s → w = w' ∧ at_ = at')
  ∧ (∀ w w' idx, OExecute w idx ∈ trace s → OExecute w' idx ∈ trace s → w = w')
  ∧ (∀ w w' idx at_, OExecute w idx ∈ trace s → ODequeue w' idx at_ ∈ trace s → w = w').
Proof.
  intros Hs.
  destruct (run_queue s0 t0 s Hs) as (n & _ & Hd & Hn).
  destruct (executed_received s0 t0 s Hs) as (Hnd & Hne & Hsub).
  split; [done|]. split; [done|]. split; [|split; [|split]].
  - intros idx Hidx. pose proof (elem_of_submseteq _ _ _ Hidx Hsub) as Hin.
    split; [done|]. rewrite Hd in Hin. apply elem_of_seq in Hin. lia.
  - intros w w' idx at_ at' H1 H2.
    pose proof (omap_NoDup_inj _ _ _ _ idx Hnd H1 H2 eq_refl eq_refl) as [= -> ->]. done.
  - intros w w' idx H1 H2.
    by pose proof (omap_NoDup_inj _ _ _ _ idx Hne H1 H2 eq_refl eq_refl) as [= ->].
  - intros w w' idx at_ H1 H2.
    destruct (run_execute_by_receiver s0 t0 s Hs w idx H1) as (at' & H3 & _).
    by pose proof (omap_NoDup_inj _ _ _ _ idx Hnd H3 H2 eq_refl eq_refl) as [= -> ->].
Qed.

Lemma Run_executes_at_most_once_witness :
  NoDup (dequeued (trace (final two_workers_schedule (Run_begin two_workers 0))))
  ∧ NoDup (executed (trace (final two_workers_schedule (Run_begin two_workers 0))))
  ∧ (∀ idx, idx ∈ executed (trace (final two_workers_schedule (Run_begin two_workers 0))) →
       idx ∈ dequeued (trace (final two_workers_schedule (Run_begin two_workers 0)))
       ∧ (idx < length (tasks two_workers))%nat)
  ∧ (∀ w w' idx at_ at',
       ODequeue w idx at_ ∈ trace (final two_workers_schedule (Run_begin two_workers 0)) →
       ODequeue w' idx at' ∈ trace (final two_workers_schedule (Run_begin two_workers 0)) →
       w = w' ∧ at_ = at')
  ∧ (∀ w w' idx,
       OExecute w idx ∈ trace (final two_workers_schedule (Run_begin two_workers 0)) →
       OExecute w' idx ∈ trace (final two_workers_schedule (Run_begin two_workers 0)) →
       w = w')
  ∧ (∀ w w' idx at_,
       OExecute w idx ∈ trace (final two_workers_schedule (Run_begin two_workers 0)) →
       ODequeue w' idx at_ ∈ trace (final two_workers_schedule (Run_begin two_workers 0)) →
       w = w').
Proof.
  apply (Run_executes_at_most_once two_workers 0
           (final two_workers_schedule (Run_begin two_workers 0))).
  exists two_workers_schedule. vm_compute. reflexivity.
Defined.

(** * After the deadline of the run *)

(** Once the context of the run is done, no [Execute] is called any more. *)
Lemma exec_after_deadline (es : list event) (s s' : state) :
  context.Done (ctx s) (now s) = true → exec es s = Some s' →
  executed (trace s') = executed (trace s) ∧ ctx s' = ctx s ∧ now s ≤ now s'.
Proof.
  revert s. induction es as [|e es IH]; intros s HD Hexec; simpl in Hexec.
  { injection Hexec as <-. repeat split; lia. }
  destruct (step e s) as [s1|] eqn:Hstep; [|done]. simpl in Hexec.
  assert (executed (trace s1) = executed (trace s) ∧ ctx s1 = ctx s ∧ now s ≤ now s1)
    as (Hex & Hctx & Hnow).
  { apply step_transition in Hstep.
    destruct Hstep; simpl; rewrite ?executed_app; simpl; rewrite ?app_nil_r;
      repeat split; try done; try lia. congruence. }
  destruct (IH s1) as (Hex' & Hctx' & Hnow'); [|done|].
  - rewrite Hctx. by apply (Done_mono _ (now s)).
  - repeat split; [congruence | congruence | lia].
Qed.

(** A worker that has returned stays so. *)
Lemma exec_exited (es : list event) (s s' : state) (w : nat) :
  pool s !! w = Some Exited → exec es s = Some s' → pool s' !! w = Some Exited.
Proof.
  revert s. induction es as [|e es IH]; intros s Hw Hexec; simpl in Hexec.
  { by injection Hexec as <-. }
  destruct (step e s) as [s1|] eqn:Hstep; [|done]. simpl in Hexec.
  apply (IH s1); [|done]. apply step_transition in Hstep.
  destruct Hstep as [| | |w' o s Hw' _|w' o s idx task rest Hw' _
                     |w' o s idx task Hw' _|w' o s idx task Hw' _
                     |w' o s idx task err ret Hw' _|];
    simpl; try done.
  - by apply lookup_app_l_Some.
  - destruct (decide (w' = w)) as [->|]; [congruence|]. by rewrite list_lookup_insert_ne.
  - destruct (decide (w' = w)) as [->|]; [congruence|]. by rewrite list_lookup_insert_ne.
  - destruct (decide (w' = w)) as [->|]; [congruence|]. by rewrite list_lookup_insert_ne.
  - destruct (decide (w' = w)) as [->|]; [congruence|]. by rewrite list_lookup_insert_ne.
  - destruct (decide (w' = w)) as [->|]; [congruence|]. by rewrite list_lookup_insert_ne.
Qed.

(** Once the context of the run is done, a worker that holds a task at its
    [select] holds it until it returns. *)
Lemma exec_held_after_deadline (es : list event) (s s' : state) (w idx : nat) (task : Task) :
  context.Done (ctx s) (now s) = true → pool s !! w = Some (AtSelect idx task) →
  exec es s = Some s' →
  pool s' !! w = Some (AtSelect idx task) ∨ pool s' !! w = Some Exited.
Proof.
  revert s. induction es as [|e es IH]; intros s HD Hw Hexec; simpl in Hexec.
  { injection Hexec as <-. by left. }
  destruct (step e s) as [s1|] eqn:Hstep; [|done]. simpl in Hexec.
  destruct (exec_after_deadline [e] s s1 HD) as (_ & Hctx & Hnow).
  { simpl. by rewrite Hstep. }
  assert (context.Done (ctx s1) (now s1) = true) as HD1.
  { rewrite Hctx. by apply (Done_mono _ (now s)). }
  assert (pool s1 !! w = Some (AtSelect idx task) ∨ pool s1 !! w = Some Exited)
    as [Hw1|Hw1].
  { apply step_transition in Hstep.
    destruct Hstep as [| | |w' o s Hw' _|w' o s idx' task' rest Hw' _
                       |w' o s idx' task' Hw' _|w' o s idx' task' Hw' HD'
                       |w' o s idx' task' err ret Hw' _|];
      simpl; try (by left).
    - left. by apply lookup_app_l_Some.
    - destruct (decide (w' = w)) as [->|]; [congruence|].
      left. by rewrite list_lookup_insert_ne.
    - destruct (decide (w' = w)) as [->|]; [congruence|].
      left. by rewrite list_lookup_insert_ne.
    - destruct (decide (w' = w)) as [->|].
      + right. apply list_lookup_insert_eq. by eapply lookup_lt_Some.
      + left. by rewrite list_lookup_insert_ne.
    - congruence.
    - destruct (decide (w' = w)) as [->|]; [congruence|].
      left. by rewrite list_lookup_insert_ne. }
  - by apply (IH s1).
  - right. by apply (exec_exited es s1).
Qed.

(** What is left in the channel after [n] receptions are the positions from
    [n] on. *)
Lemma queue_drop_elem (ts : list Task) (n j : nat) (task : Task) :
  (j, task) ∈ drop n (queue ts) → (n ≤ j)%nat ∧ ts !! j = Some task.
Proof.
  intros (i & Hi)%list_elem_of_lookup_1. rewrite lookup_drop in Hi.
  apply queue_lookup in Hi as [-> Hts]. split; [lia | done].
Qed.

(** C10: a worker that receives a task when the context of the run is done
    returns at the [select] that follows, whenever it comes to it, without
    calling [Execute] on the task and without writing a result.  Having
    returned that worker does nothing more, nobody calls [Execute] any more,
    and neither the task received nor those left in the channel behind it are
    ever executed or get a result written; with distinct identifiers, in a
    map that was empty, they have no entry. *)
Theorem worker_abandons_after_deadline (s0 : TaskScheduler) (t0 : Z) (s : state)
    (w : nat) (o : oracle) (idx : nat) (task : Task) (rest : list (nat * Task)) :
  reachable s0 t0 s →
  pool s !! w = Some AtRange → taskChan s = (idx, task) :: rest →
  context.Done (ctx s) (now s) = true →
  step (Worker w o) s = Some (receive w idx task rest s)
  ∧ (∀ o', step (Worker w o') (receive w idx task rest s) =
             Some (exit w (receive w idx task rest s)))
  ∧ (∀ es s', exec es (exit w (receive w idx task rest s)) = Some s' →
       pool s' !! w = Some Exited)
  ∧ ∀ es s', exec es (receive w idx task rest s) = Some s' →
      (pool s' !! w = Some (AtSelect idx task)
       ∧ (∀ o', step (Worker w o') s' = Some (exit w s'))
       ∨ pool s' !! w = Some Exited)
      ∧ executed (trace s') = executed (trace s)
      ∧ ∀ j task', (j, task') ∈ (idx, task) :: rest →
          (j ∉ executed (trace s')) ∧ (j ∉ recorded (trace s'))
          ∧ (NoDup (GetID <$> tasks s0) → results s0 = ∅ →
             results (sch s') !! GetID task' = None).
Proof.
  intros Hs Hw Hq HD.
  assert (step (Worker w o) s = Some (receive w idx task rest s)) as Hstep.
  { simpl. unfold worker. by rewrite Hw, Hq. }
  set (s1 := receive w idx task rest s) in *.
  assert (pool s1 !! w = Some (AtSelect idx task)) as Hw1.
  { unfold s1. simpl. apply list_lookup_insert_eq. by eapply lookup_lt_Some. }
  assert (context.Done (ctx s1) (now s1) = true) as HD1 by done.
  assert (∀ s', ctx s' = ctx s1 → now s1 ≤ now s' →
            pool s' !! w = Some (AtSelect idx task) →
            ∀ o', step (Worker w o') s' = Some (exit w s')) as Hnext.
  { intros s' Hctx Hnow Hw' o'. simpl. unfold worker. rewrite Hw', Hctx.
    by rewrite (Done_mono _ _ _ Hnow HD1). }
  split; [done|]. split; [intros o'; apply Hnext; [done | lia | done]|]. split.
  { intros es s' Hexec. apply (exec_exited es (exit w s1)); [|done]. simpl.
    apply list_lookup_insert_eq. rewrite length_insert. by eapply lookup_lt_Some. }
  intros es s' Hexec.
  assert (reachable s0 t0 s') as Hs'.
  { eapply reachable_exec; [|done]. by eapply reachable_step. }
  destruct (exec_after_deadline es s1 s' HD1 Hexec) as (Hex & Hctx & Hnow).
  assert (executed (trace s1) = executed (trace s)) as Hex1.
  { unfold s1. simpl. rewrite executed_app. simpl. by rewrite app_nil_r. }
  rewrite Hex1 in Hex.
  split; [|split; [done|]].
  { destruct (exec_held_after_deadline es s1 s' w idx task HD1 Hw1 Hexec) as [Hw'|Hw'];
      [left | by right].
    split; [done|]. by apply Hnext. }
  intros j task' Hj.
  destruct (run_queue s0 t0 s Hs) as (n & Hn & Hd & _).
  rewrite <- Hq, Hn in Hj. apply queue_drop_elem in Hj as [Hge Htask].
  assert (j ∉ executed (trace s')) as Hnot.
  { rewrite Hex. intros Hin.
    destruct (executed_received s0 t0 s Hs) as (_ & _ & Hsub).
    pose proof (elem_of_submseteq _ _ _ Hin Hsub) as Hin'.
    rewrite Hd in Hin'. apply elem_of_seq in Hin'. lia. }
  destruct (run_executed s0 t0 s' Hs') as [_ Hperm].
  assert (j ∉ recorded (trace s')) as Hnotrec.
  { intros Hin. apply Hnot. rewrite Hperm. apply elem_of_app. by left. }
  split; [done|]. split; [done|]. intros Hnodup Hempty.
  destruct (results (sch s') !! GetID task') as [err|] eqn:E; [exfalso|done].
  apply elem_of_dom_2 in E.
  rewrite (run_results s0 t0 s' Hs'), dom_apply_writes, Hempty, dom_empty_L,
    (left_id_L ∅ (∪)), elem_of_list_to_set, list_elem_of_fmap in E.
  destruct E as ([id err'] & Hid & (w1 & idx1 & Hin)%elem_of_writes). simpl in Hid.
  destruct (run_from_Execute s0 t0 s' Hs') as [Hrec _].
  destruct (Hrec _ _ _ _ Hin) as (task1 & _ & _ & Htask1 & -> & _).
  assert (idx1 = j) as ->.
  { apply (NoDup_lookup (GetID <$> tasks s0) idx1 j (GetID task1) Hnodup).
    - by rewrite list_lookup_fmap, Htask1.
    - rewrite list_lookup_fmap, Htask. simpl. by rewrite Hid. }
  apply Hnotrec, elem_of_recorded. eauto.
Qed.

Lemma worker_abandons_after_deadline_witness :
  step (Worker 0 first) after_deadline =
    Some (receive 0 1 (Simple (NewSimpleTask "task-2" (500 * time.Millisecond)))
            [(2%nat, Simple (NewSimpleTask "task-3" (500 * time.Millisecond)))]
            after_deadline)
  ∧ pool (final [Worker 0 first; Worker 0 first; Main] after_deadline) !! O = Some Exited
  ∧ executed (trace (final [Worker 0 first; Worker 0 first; Main] after_deadline)) = [O]
  ∧ results (sch (final [Worker 0 first; Worker 0 first; Main] after_deadline))
      !! "task-2" = None
  ∧ results (sch (final [Worker 0 first; Worker 0 first; Main] after_deadline))
      !! "task-3" = None.
Proof.
  destruct (worker_abandons_after_deadline short_budget 0 after_deadline 0 first 1
              (Simple (NewSimpleTask "task-2" (500 * time.Millisecond)))
              [(2%nat, Simple (NewSimpleTask "task-3" (500 * time.Millisecond)))])
    as (Hstep & Hnext & Hgone & Hafter).
  - exists short_budget_schedule. vm_compute. reflexivity.
  - vm_compute. reflexivity.
  - vm_compute. reflexivity.
  - vm_compute. reflexivity.
  - split; [exact Hstep|].
    split.
    { apply (Hgone [Main]). vm_compute. reflexivity. }
    destruct (Hafter [Worker 0 first; Main]
                (final [Worker 0 first; Worker 0 first; Main] after_deadline))
      as (_ & Hex & Hitems); [vm_compute; reflexivity|].
    split; [rewrite Hex; vm_compute; reflexivity|].
    split.
    + refine (proj2 (proj2 (Hitems 1%nat
                (Simple (NewSimpleTask "task-2" (500 * time.Millisecond))) _)) _ _).
      * left.
      * by apply (bool_decide_unpack _).
      * reflexivity.
    + refine (proj2 (proj2 (Hitems 2%nat
                (Simple (NewSimpleTask "task-3" (500 * time.Millisecond))) _)) _ _).
      * right. left.
      * by apply (bool_decide_unpack _).
      * reflexivity.
Defined.

(** * Construction and reuse *)

(** C5, as amended: [NewTaskScheduler] neither fails nor clamps, it keeps the
    worker count it is given.  With a worker count below one, [Run] returns
    having started no worker: no task is received or executed, nothing is
    written to the result map, and nothing but the return is done. *)
Theorem NewTaskScheduler_keeps_workerCount (n : Z) (timeout : time.Duration)
    (batch : list Task) (t0 : Z) :
  workerCount (NewTaskScheduler n timeout) = n
  ∧ (n ≤ 0 →
     (∀ p, ∃ s', Run p (submit (NewTaskScheduler n timeout) batch) t0 = Some s'
                 ∧ reachable (submit (NewTaskScheduler n timeout) batch) t0 s'
                 ∧ pc s' = Returned)
     ∧ ∀ s', reachable (submit (NewTaskScheduler n timeout) batch) t0 s' →
         pool s' = [] ∧ taskChan s' = queue batch ∧ results (sch s') = ∅
         ∧ trace s' = match pc s' with Returned => [OReturn] | _ => [] end).
Proof.
  split; [done|]. intros Hwc.
  set (s0 := submit (NewTaskScheduler n timeout) batch).
  destruct (submit_fields (NewTaskScheduler n timeout) batch)
    as (Hts & Hwg & Hres & _ & Hcount).
  fold s0 in Hts, Hwg, Hres, Hcount. simpl in Hts, Hwg, Hres, Hcount.
  split.
  { intros p. apply (Run_returns s0 t0 Hwg p). }
  apply (run_ind s0 t0 (λ s', pool s' = [] ∧ taskChan s' = queue batch
                              ∧ results (sch s') = ∅
                              ∧ trace s' = match pc s' with
                                           | Returned => [OReturn]
                                           | _ => []
                                           end)).
  { simpl. by rewrite Hts, Hres. }
  intros e s s' Hs (Hpool & Hq & Hr & Htr) Hstep.
  destruct (run_static s0 t0 s Hs) as (_ & _ & Hwc' & _ & _).
  destruct (run_pool s0 t0 Hwg s Hs) as [_ Hpc].
  destruct Hstep as [s i Hi Hlt|s i Hi Hge|s Hi Hz|w o s Hw _|w o s idx task rest Hw _
                     |w o s idx task Hw _|w o s idx task Hw _
                     |w o s idx task err ret Hw _|];
    simpl; try (rewrite Hpool in Hw; done).
  - rewrite Hi, Hpool in Hpc. simpl in Hpc. lia.
  - rewrite Hi in Htr. done.
  - rewrite Hi in Htr. by rewrite Htr.
  - done.
Qed.

Lemma NewTaskScheduler_keeps_workerCount_witness :
  (∀ p, ∃ s', Run p (submit (NewTaskScheduler (-1) (4 * time.Second)) two_tasks) 0 = Some s'
              ∧ reachable (submit (NewTaskScheduler (-1) (4 * time.Second)) two_tasks) 0 s'
              ∧ pc s' = Returned)
  ∧ ∀ s', reachable (submit (NewTaskScheduler (-1) (4 * time.Second)) two_tasks) 0 s' →
      pool s' = [] ∧ taskChan s' = queue two_tasks ∧ results (sch s') = ∅
      ∧ trace s' = match pc s' with Returned => [OReturn] | _ => [] end.
Proof.
  apply (proj2 (NewTaskScheduler_keeps_workerCount (-1) (4 * time.Second) two_tasks 0)).
  lia.
Defined.

(** C5 as stated fails: built with a worker count of [0], the scheduler has
    a worker count of [0], and its [Run] returns an empty map without a worker
    and without a word about the two tasks it was given. *)
Lemma NewTaskScheduler_zero_workers_run :
  workerCount (NewTaskScheduler 0 (4 * time.Second)) = 0
  ∧ ∃ s', Run in_order (submit (NewTaskScheduler 0 (4 * time.Second)) two_tasks) 0 = Some s'
          ∧ pool s' = [] ∧ trace s' = [OReturn] ∧ results (sch s') = ∅.
Proof.
  split; [reflexivity|]. eexists. split; [vm_compute; reflexivity|].
  repeat split; reflexivity.
Qed.

(** C9, as amended: nothing guards [Run] against a second call.  On a
    scheduler whose [Run] has returned, a further call begins as the first
    one did, the channel being filled with every submitted task again, only
    with the result map as it was left; it returns as well; and, given a
    worker, some budget and a task, it executes the first task again. *)
Theorem Run_again (s0 : TaskScheduler) (t0 : Z) (s1 : state) (t1 : Z) :
  wg s0 = 0 → reachable s0 t0 s1 → pc s1 = Returned →
  Run_begin (sch s1) t1 =
    {| sch := sch s1; taskChan := queue (tasks s0);
       ctx := context.WithTimeout context.Background t1 (timeout s0);
       now := t1; pc := Spawning 0; pool := []; trace := [] |}
  ∧ wg (sch s1) = 0
  ∧ (∀ p, ∃ s2, Run p (sch s1) t1 = Some s2 ∧ reachable (sch s1) t1 s2
                ∧ pc s2 = Returned)
  ∧ (∀ task rest o,
       tasks s0 = task :: rest → 1 ≤ workerCount s0 → 0 < timeout s0 →
       ∃ s2, exec [Main; Worker 0 o; Worker 0 o] (Run_begin (sch s1) t1) = Some s2
             ∧ executed (trace s2) = [O]).
Proof.
  intros Hwg Hs Hpc.
  destruct (run_static s0 t0 s1 Hs) as (Hts & Hto & Hwc & _ & _).
  destruct (run_pool s0 t0 Hwg s1 Hs) as [Hlive Hp]. rewrite Hpc in Hp.
  assert (wg (sch s1) = 0) as Hwg1 by (destruct Hp as [_ H0]; lia).
  split; [|split; [done|split]].
  - unfold Run_begin. by rewrite Hts, Hto.
  - intros p. apply (Run_returns (sch s1) t1 Hwg1 p).
  - intros task rest o Htask Hcount Hbudget.
    unfold Run_begin. rewrite Hts, Hto, Htask. simpl.
    unfold Run_step. simpl. rewrite Hwc.
    destruct (Z.ltb_spec 0 (workerCount s0)); [|lia]. simpl.
    unfold worker. simpl.
    assert (context.Done (context.WithTimeout context.Background t1 (timeout s0)) t1 = false)
      as ->.
    { rewrite WithTimeout_Done. simpl. apply Z.leb_gt. lia. }
    eexists. split; [done|]. done.
Qed.

Lemma Run_again_witness :
  wg (sch (final one_worker_schedule (Run_begin one_worker 0))) = 0
  ∧ (∀ p, ∃ s2, Run p (sch (final one_worker_schedule (Run_begin one_worker 0)))
                  (600 * time.Millisecond) = Some s2
                ∧ reachable (sch (final one_worker_schedule (Run_begin one_worker 0)))
                    (600 * time.Millisecond) s2
                ∧ pc s2 = Returned)
  ∧ (∀ task rest o,
       tasks one_worker = task :: rest → 1 ≤ workerCount one_worker →
       0 < timeout one_worker →
       ∃ s2, exec [Main; Worker 0 o; Worker 0 o]
               (Run_begin (sch (final one_worker_schedule (Run_begin one_worker 0)))
                  (600 * time.Millisecond)) = Some s2
             ∧ executed (trace s2) = [O]).
Proof.
  refine (proj2 (Run_again one_worker 0
                   (final one_worker_schedule (Run_begin one_worker 0))
                   (600 * time.Millisecond) _ _ _)).
  - reflexivity.
  - exists one_worker_schedule. vm_compute. reflexivity.
  - vm_compute. reflexivity.
Defined.

(** C9 as stated fails: called a second time on the same scheduler, [Run]
    returns as it did the first time, both tasks having been executed again. *)
Lemma Run_twice_executes_twice :
  ∃ s1 s2,
    Run in_order one_worker 0 = Some s1
    ∧ Run in_order (sch s1) (now s1) = Some s2
    ∧ executed (trace s1) = [0; 1]%nat
    ∧ executed (trace s2) = [0; 1]%nat
    ∧ pc s2 = Returned.
Proof.
  eexists. eexists. split; [vm_compute; reflexivity|].
  split; [vm_compute; reflexivity|]. repeat split; reflexivity.
Qed.

(** * Further properties of [Execute] *)

(** The deadline of [taskCtx] in [SimpleTask.Execute], and where it stands
    with respect to the end of the work: the three cases of [Execute]. *)
Lemma SimpleTask_Execute_cases (tk : SimpleTask.t) (c : context.Context) (t : Z) (o : oracle) :
  ∃ d, context.Deadline (SimpleTask.taskCtx tk c t) = Some d
       ∧ d ≤ t + SimpleTask.Timeout tk
       ∧ (∀ x, context.Done (SimpleTask.taskCtx tk c t) x = true ↔ d ≤ x)
       ∧ (d < SimpleTask.woke t o
            ∧ SimpleTask.Execute tk c t o = (SimpleTask.timed_out tk, Z.max t d)
          ∨ d = SimpleTask.woke t o
            ∧ SimpleTask.Execute tk c t o =
                (if prefer_done o then Some (ErrContext context.DeadlineExceeded)
                 else SimpleTask.timed_out tk, SimpleTask.woke t o)
          ∨ SimpleTask.woke t o < d
            ∧ SimpleTask.Execute tk c t o = (None, SimpleTask.woke t o)).
Proof.
  pose proof (WithTimeout_Deadline c t (SimpleTask.Timeout tk)) as Hd.
  set (d := match context.Deadline c with
            | Some cur => Z.min cur (t + SimpleTask.Timeout tk)
            | None => t + SimpleTask.Timeout tk
            end) in *.
  exists d. split; [exact Hd|]. split; [unfold d; destruct (context.Deadline c); lia|].
  split.
  { intros x. rewrite Done_true. unfold SimpleTask.taskCtx. rewrite Hd. split.
    - by intros (d' & [= <-] & ?).
    - intros ?. by exists d. }
  destruct (Z.lt_total d (SimpleTask.woke t o)) as [Hlt|[Heq|Hgt]].
  - left. split; [done|]. by apply Execute_deadline_first.
  - right; left. split; [done|]. apply Execute_tie.
    unfold SimpleTask.taskCtx. by rewrite Hd, Heq.
  - right; right. split; [done|]. by apply (Execute_work_first tk c t o d).
Qed.

(** [SimpleTask.Execute] returns [nil] exactly when the work is shorter than
    [Timeout] and the context it was given is not done when the work ends; a
    work as long as [Timeout] to the nanosecond is a failure. *)
Theorem SimpleTask_Execute_succeeds_iff (tk : SimpleTask.t) (c : context.Context) (t : Z)
    (o : oracle) :
  (SimpleTask.Execute tk c t o).1 = None
  ↔ SimpleTask.duration o < SimpleTask.Timeout tk
    ∧ context.Done c (t + SimpleTask.duration o) = false.
Proof.
  destruct (SimpleTask_Execute_cases tk c t o) as (d & _ & _ & HD & Hcases).
  assert (SimpleTask.woke t o < d
          ↔ SimpleTask.duration o < SimpleTask.Timeout tk
            ∧ context.Done c (t + SimpleTask.duration o) = false) as Hiff.
  { specialize (HD (SimpleTask.woke t o)).
    assert (context.Done (SimpleTask.taskCtx tk c t) (SimpleTask.woke t o) = false
            ↔ SimpleTask.woke t o < d) as Hnot.
    { destruct (context.Done _ _).
      - split; [done|]. intros Hlt. pose proof (proj1 HD eq_refl). lia.
      - split; [|done]. intros _.
        destruct (Z.le_gt_cases d (SimpleTask.woke t o)) as [Hle|]; [|lia].
        by pose proof (proj2 HD Hle). }
    rewrite <- Hnot. unfold SimpleTask.taskCtx, SimpleTask.woke.
    rewrite WithTimeout_Done, orb_false_iff, Z.leb_gt.
    split; intros [? ?]; split; try done; lia. }
  rewrite <- Hiff.
  destruct Hcases as [[Hlt ->]|[[Heq ->]|[Hgt ->]]]; simpl.
  - split; [done | lia].
  - split; [by destruct (prefer_done o) | lia].
  - done.
Qed.

(** [SimpleTask.Execute] returns at the call or later, at the latest when
    the work ends, which is less than 400ms after the call; it returns within
    [Timeout] of the call, and, called under a context with a deadline, not
    after that deadline, unless it was called after it. *)
Theorem SimpleTask_Execute_returns_in_time (tk : SimpleTask.t) (c : context.Context) (t : Z)
    (o : oracle) :
  t ≤ (SimpleTask.Execute tk c t o).2 ≤ t + SimpleTask.duration o
  ∧ (SimpleTask.Execute tk c t o).2 < t + 400 * time.Millisecond
  ∧ (SimpleTask.Execute tk c t o).2 ≤ t + Z.max 0 (SimpleTask.Timeout tk)
  ∧ match context.Deadline c with
    | Some D => (SimpleTask.Execute tk c t o).2 ≤ Z.max t D
    | None => True
    end.
Proof.
  pose proof (duration_range o) as Hr.
  pose proof (WithTimeout_Deadline c t (SimpleTask.Timeout tk)) as Hdl.
  destruct (SimpleTask_Execute_cases tk c t o) as (d & Hd & Hle & _ & Hcases).
  unfold SimpleTask.taskCtx in Hd. rewrite Hd in Hdl. injection Hdl as Hdl.
  unfold SimpleTask.woke, time.Millisecond in *.
  destruct Hcases as [[Hlt ->]|[[Heq ->]|[Hgt ->]]]; simpl;
    destruct (context.Deadline c) as [D|]; repeat split; lia.
Qed.

(** [SimpleTask.Execute] fails in two ways only: with the timeout error, or
    with the bare context error that its goroutine sends on [done].  The
    bare error can be returned only when the deadline of [taskCtx] falls on
    the very instant the work ends; whenever the deadline falls elsewhere,
    every failure is the timeout error. *)
Theorem SimpleTask_Execute_bare_context_error (tk : SimpleTask.t) (c : context.Context)
    (t : Z) (o : oracle) :
  (∀ err, (SimpleTask.Execute tk c t o).1 = Some err →
     err = ErrTimeout (SimpleTask.ID tk) (Some context.DeadlineExceeded)
     ∨ err = ErrContext context.DeadlineExceeded)
  ∧ (∀ e, (SimpleTask.Execute tk c t o).1 = Some (ErrContext e) →
       e = context.DeadlineExceeded
       ∧ context.Deadline (SimpleTask.taskCtx tk c t) = Some (SimpleTask.woke t o))
  ∧ (∀ err, (SimpleTask.Execute tk c t o).1 = Some err →
       context.Deadline (SimpleTask.taskCtx tk c t) ≠ Some (SimpleTask.woke t o) →
       err = ErrTimeout (SimpleTask.ID tk) (Some context.DeadlineExceeded)).
Proof.
  destruct (SimpleTask_Execute_cases tk c t o) as (d & Hd & _ & _ & Hcases).
  rewrite Hd. unfold SimpleTask.timed_out in *.
  destruct Hcases as [[Hlt ->]|[[Heq ->]|[Hgt ->]]]; simpl.
  - split; [intros err [= <-]; by left|]. split; [done|]. by intros err [= <-].
  - destruct (prefer_done o).
    + split; [intros err [= <-]; by right|].
      split; [intros e [= <-]; by rewrite Heq | intros err _ Hne; by rewrite Heq in Hne].
    + split; [intros err [= <-]; by left|]. split; [done|]. by intros err [= <-].
  - split; [done|]. split; done.
Qed.

(** The two ways the loop of [LongRunningTask.Execute] ends: after the last
    step, no poll having found the context done, or at the first poll that
    finds it done. *)
Lemma LongRunningTask_run_cases (tk : LongRunningTask.t) (c : context.Context) (t : Z) :
  (∀ k : nat, (k < Z.to_nat (LongRunningTask.Count tk))%nat →
     context.Done (context.WithTimeout c t (LongRunningTask.Timeout tk))
       (LongRunningTask.poll t k) = false)
  ∧ LongRunningTask.run tk c t =
      LongRunningTask.mkResult None
        (LongRunningTask.poll t (Z.to_nat (LongRunningTask.Count tk)))
        (Z.of_nat (Z.to_nat (LongRunningTask.Count tk)))
  ∨ ∃ j : nat, (j < Z.to_nat (LongRunningTask.Count tk))%nat
      ∧ context.Done (context.WithTimeout c t (LongRunningTask.Timeout tk))
          (LongRunningTask.poll t j) = true
      ∧ (∀ j' : nat, (j' < j)%nat →
           context.Done (context.WithTimeout c t (LongRunningTask.Timeout tk))
             (LongRunningTask.poll t j') = false)
      ∧ LongRunningTask.run tk c t =
          LongRunningTask.mkResult
            (Some (ErrCancelledAtStep (LongRunningTask.ID tk) (Z.of_nat j)
                     (Some context.DeadlineExceeded)))
            (LongRunningTask.poll t j) (Z.of_nat j).
Proof.
  unfold LongRunningTask.run.
  set (taskCtx := context.WithTimeout c t (LongRunningTask.Timeout tk)).
  set (n := Z.to_nat (LongRunningTask.Count tk)).
  destruct (bounded_search (λ k, context.Done taskCtx (LongRunningTask.poll t k)) n)
    as [(k & Hk & HD)|Hno].
  - right. destruct (loop_cancelled tk taskCtx n 0 t k Hk HD) as (j & Hj & HDj & Hfirst & ->).
    exists j. repeat split; try done; lia.
  - left. split; [done|]. by rewrite loop_completes.
Qed.

Lemma poll_Z (t : Z) (j : nat) :
  LongRunningTask.poll t j = t + Z.of_nat j * (100 * time.Millisecond).
Proof. done. Qed.

(** [LongRunningTask.Execute] returns [nil] exactly when it has no step to
    make, or its context is not yet done at the poll before the last step:
    what happens to the context during the last step does not count. *)
Theorem LongRunningTask_Execute_succeeds_iff (tk : LongRunningTask.t) (c : context.Context)
    (t : Z) :
  (LongRunningTask.Execute tk c t).1 = None
  ↔ LongRunningTask.Count tk ≤ 0
    ∨ context.Done (context.WithTimeout c t (LongRunningTask.Timeout tk))
        (t + (LongRunningTask.Count tk - 1) * (100 * time.Millisecond)) = false.
Proof.
  unfold LongRunningTask.Execute.
  destruct (LongRunningTask_run_cases tk c t) as [[Hno ->]|(j & Hj & HD & _ & ->)]; simpl.
  - split; [|done]. intros _.
    destruct (Z.le_gt_cases (LongRunningTask.Count tk) 0) as [|Hpos]; [by left | right].
    specialize (Hno (Z.to_nat (LongRunningTask.Count tk) - 1)%nat ltac:(lia)).
    rewrite poll_Z in Hno.
    by replace (LongRunningTask.Count tk - 1)
      with (Z.of_nat (Z.to_nat (LongRunningTask.Count tk) - 1)) by lia.
  - split; [done|]. intros [Hle|Hlast]; [lia|].
    assert (context.Done (context.WithTimeout c t (LongRunningTask.Timeout tk))
              (t + (LongRunningTask.Count tk - 1) * (100 * time.Millisecond)) = true); [|congruence].
    apply (Done_mono _ (LongRunningTask.poll t j)); [|done].
    rewrite poll_Z. unfold time.Millisecond. nia.
Qed.

(** The step a cancelled [LongRunningTask] reports is the first one whose
    poll comes at or after the moment its context is done: the context is
    done at that poll and was not at the poll before.  [Execute] returns at
    that poll, and the steps reported as done are those before it. *)
Theorem LongRunningTask_Execute_cancel_step (tk : LongRunningTask.t) (c : context.Context)
    (t : Z) (id : string) (i : Z) (cause : option context.error) :
  (LongRunningTask.Execute tk c t).1 = Some (ErrCancelledAtStep id i cause) →
  id = LongRunningTask.ID tk ∧ cause = Some context.DeadlineExceeded
  ∧ 0 ≤ i < LongRunningTask.Count tk
  ∧ context.Done (context.WithTimeout c t (LongRunningTask.Timeout tk))
      (t + i * (100 * time.Millisecond)) = true
  ∧ (0 < i →
     context.Done (context.WithTimeout c t (LongRunningTask.Timeout tk))
       (t + (i - 1) * (100 * time.Millisecond)) = false)
  ∧ (LongRunningTask.Execute tk c t).2 = t + i * (100 * time.Millisecond)
  ∧ LongRunningTask.progress (LongRunningTask.run tk c t) = i.
Proof.
  unfold LongRunningTask.Execute.
  destruct (LongRunningTask_run_cases tk c t) as [[Hno ->]|(j & Hj & HD & Hfirst & ->)];
    simpl; [done|].
  intros [= <- <- <-]. rewrite poll_Z in HD.
  repeat split; try done; try lia.
  intros Hpos. specialize (Hfirst (j - 1)%nat ltac:(lia)). rewrite poll_Z in Hfirst.
  by replace (Z.of_nat j - 1) with (Z.of_nat (j - 1)) by lia.
Qed.

Lemma LongRunningTask_Execute_cancel_step_witness :
  "long-task-2" = LongRunningTask.ID (NewLongRunningTask "long-task-2" 20 (1 * time.Second))
  ∧ Some context.DeadlineExceeded = Some context.DeadlineExceeded
  ∧ 0 ≤ 10 < LongRunningTask.Count (NewLongRunningTask "long-task-2" 20 (1 * time.Second))
  ∧ context.Done
      (context.WithTimeout (context.WithTimeout context.Background 0 (4 * time.Second)) 0
         (LongRunningTask.Timeout (NewLongRunningTask "long-task-2" 20 (1 * time.Second))))
      (0 + 10 * (100 * time.Millisecond)) = true
  ∧ (0 < 10 →
     context.Done
       (context.WithTimeout (context.WithTimeout context.Background 0 (4 * time.Second)) 0
          (LongRunningTask.Timeout (NewLongRunningTask "long-task-2" 20 (1 * time.Second))))
       (0 + (10 - 1) * (100 * time.Millisecond)) = false)
  ∧ (LongRunningTask.Execute (NewLongRunningTask "long-task-2" 20 (1 * time.Second))
       (context.WithTimeout context.Background 0 (4 * time.Second)) 0).2 =
      0 + 10 * (100 * time.Millisecond)
  ∧ LongRunningTask.progress
      (LongRunningTask.run (NewLongRunningTask "long-task-2" 20 (1 * time.Second))
         (context.WithTimeout context.Background 0 (4 * time.Second)) 0) = 10.
Proof.
  apply (LongRunningTask_Execute_cancel_step
           (NewLongRunningTask "long-task-2" 20 (1 * time.Second))
           (context.WithTimeout context.Background 0 (4 * time.Second)) 0
           "long-task-2" 10 (Some context.DeadlineExceeded)).
  vm_compute. reflexivity.
Defined.

(** [LongRunningTask.Execute] returns at the call or later, at the latest
    after [Count] steps of 100ms, and less than one step after its context is
    done: less than 100ms after [Timeout] has passed, and less than 100ms
    after the deadline of the context it was given. *)
Theorem LongRunningTask_Execute_returns_in_time (tk : LongRunningTask.t)
    (c : context.Context) (t : Z) :
  t ≤ (LongRunningTask.Execute tk c t).2
      ≤ t + Z.max 0 (LongRunningTask.Count tk) * (100 * time.Millisecond)
  ∧ (LongRunningTask.Execute tk c t).2
      < t + Z.max 0 (LongRunningTask.Timeout tk) + 100 * time.Millisecond
  ∧ match context.Deadline c with
    | Some D => (LongRunningTask.Execute tk c t).2 < Z.max t D + 100 * time.Millisecond
    | None => True
    end.
Proof.
  pose proof (WithTimeout_Deadline c t (LongRunningTask.Timeout tk)) as Hd.
  set (d := match context.Deadline c with
            | Some cur => Z.min cur (t + LongRunningTask.Timeout tk)
            | None => t + LongRunningTask.Timeout tk
            end) in *.
  assert (∀ x, context.Done (context.WithTimeout c t (LongRunningTask.Timeout tk)) x = false
               → x < d) as Hnot.
  { intros x Hx. by apply (proj1 (Done_false _ _) Hx). }
  assert ((LongRunningTask.Execute tk c t).2 < Z.max t d + 100 * time.Millisecond
          ∧ t ≤ (LongRunningTask.Execute tk c t).2
              ≤ t + Z.max 0 (LongRunningTask.Count tk) * (100 * time.Millisecond))
    as [Hlate Hrange].
  { unfold LongRunningTask.Execute.
    destruct (LongRunningTask_run_cases tk c t) as [[Hno ->]|(j & Hj & HD & Hfirst & ->)];
      simpl; rewrite poll_Z; unfold time.Millisecond in *.
    - destruct (Z.le_gt_cases (LongRunningTask.Count tk) 0) as [|Hpos].
      + replace (Z.to_nat (LongRunningTask.Count tk)) with O by lia. lia.
      + specialize (Hno (Z.to_nat (LongRunningTask.Count tk) - 1)%nat ltac:(lia)).
        apply Hnot in Hno. rewrite poll_Z in Hno. unfold time.Millisecond in Hno. lia.
    - destruct j as [|j]; [lia|].
      specialize (Hfirst j ltac:(lia)). apply Hnot in Hfirst.
      rewrite poll_Z in Hfirst. unfold time.Millisecond in Hfirst. lia. }
  split; [done|]. unfold d in Hlate.
  destruct (context.Deadline c) as [D|]; [split|split; [|done]]; lia.
Qed.

(** [Execute] called under a context that is done already returns at once:
    a [SimpleTask] the timeout error, without doing its work, a
    [LongRunningTask] the cancellation error at step 0; but a
    [LongRunningTask] without a step to make returns [nil] all the same. *)
Theorem Execute_under_done_context (task : Task) (c : context.Context) (t : Z) (o : oracle) :
  context.Done c t = true →
  Execute task c t o =
    (match task with
     | Simple tk => Some (ErrTimeout (SimpleTask.ID tk) (Some context.DeadlineExceeded))
     | LongRunning tk =>
         if 0 <? LongRunningTask.Count tk
         then Some (ErrCancelledAtStep (LongRunningTask.ID tk) 0
                      (Some context.DeadlineExceeded))
         else None
     end, t).
Proof.
  intros HD. destruct task as [tk|tk]; simpl.
  - pose proof (duration_range o) as Hr. unfold time.Millisecond in Hr.
    destruct (SimpleTask_Execute_cases tk c t o) as (d & _ & _ & HDt & Hcases).
    assert (d ≤ t) as Hdt.
    { apply HDt. unfold SimpleTask.taskCtx. by rewrite WithTimeout_Done, HD. }
    unfold SimpleTask.woke in Hcases.
    destruct Hcases as [[Hlt ->]|[[Heq ->]|[Hgt ->]]]; [|lia|lia].
    unfold SimpleTask.timed_out. f_equal. lia.
  - unfold LongRunningTask.Execute, LongRunningTask.run.
    assert (context.Done (context.WithTimeout c t (LongRunningTask.Timeout tk)) t = true)
      as HDt by (by rewrite WithTimeout_Done, HD).
    destruct (Z.ltb_spec 0 (LongRunningTask.Count tk)) as [Hpos|Hle].
    + destruct (Z.to_nat (LongRunningTask.Count tk)) as [|n] eqn:E; [lia|].
      simpl. by rewrite HDt, (Err_Done _ _ HDt).
    + by replace (Z.to_nat (LongRunningTask.Count tk)) with O by lia.
Qed.

Lemma Execute_under_done_context_witness :
  Execute (LongRunning (NewLongRunningTask "long-task-1" 50 (5 * time.Second)))
    (context.WithTimeout context.Background 0 (4 * time.Second)) (4 * time.Second) first =
    (Some (ErrCancelledAtStep "long-task-1" 0 (Some context.DeadlineExceeded)),
     4 * time.Second).
Proof.
  apply (Execute_under_done_context
           (LongRunning (NewLongRunningTask "long-task-1" 50 (5 * time.Second)))
           (context.WithTimeout context.Background 0 (4 * time.Second))
           (4 * time.Second) first).
  vm_compute. reflexivity.
Defined.

(** * Further properties of a run *)

Lemma live_le_length (gs : list goroutine) : (live gs ≤ length gs)%nat.
Proof. induction gs as [|[] gs IH]; simpl; lia. Qed.

Lemma in_flight_le_live (gs : list goroutine) : (length (in_flight gs) ≤ live gs)%nat.
Proof. induction gs as [|[] gs IH]; simpl; lia. Qed.

Lemma writes_recorded_length (tr : list obs) : length (writes tr) = length (recorded tr).
Proof. induction tr as [|[] tr IH]; simpl; lia. Qed.



(** The channel hands the tasks out in the order of their submission, none
    being skipped: at any moment of a run the items received are the first
    [n] positions of the batch, in that order, and the channel holds the
    others. *)
Theorem Run_dispatch_in_order (s0 : TaskScheduler) (t0 : Z) (s : state) :
  reachable s0 t0 s →
  ∃ n : nat, (n ≤ length (tasks s0))%nat
    ∧ dequeued (trace s) = seq 0 n
    ∧ taskChan s = drop n (queue (tasks s0)).
Proof.
  intros Hs. destruct (run_queue s0 t0 s Hs) as (n & Hq & Hd & Hn). by exists n.
Qed.

Lemma Run_dispatch_in_order_witness :
  ∃ n : nat, (n ≤ length (tasks short_budget))%nat
    ∧ dequeued (trace after_deadline) = seq 0 n
    ∧ taskChan after_deadline = drop n (queue (tasks short_budget)).
Proof.
  apply (Run_dispatch_in_order short_budget 0 after_deadline).
  exists short_budget_schedule. vm_compute. reflexivity.
Defined.

(** There are never more workers than [workerCount]. *)
Lemma pool_length_bound (s0 : TaskScheduler) (t0 : Z) (s : state) :
  wg s0 = 0 → reachable s0 t0 s → (length (pool s) ≤ Z.to_nat (workerCount s0))%nat.
Proof.
  intros Hwg Hs. destruct (run_pool s0 t0 Hwg s Hs) as [_ Hpc].
  destruct (pc s); [lia | lia | destruct Hpc; lia].
Qed.

(** The pool is bounded: a run never has more than [workerCount] workers, so
    never more than [workerCount] calls of [Execute] under way; and the
    counter of the [WaitGroup] is the number of workers that have not
    returned, so it never goes below zero. *)
Theorem Run_pool_bounded (s0 : TaskScheduler) (t0 : Z) (s : state) :
  wg s0 = 0 → reachable s0 t0 s →
  wg (sch s) = Z.of_nat (live (pool s))
  ∧ 0 ≤ wg (sch s) ≤ Z.max 0 (workerCount s0)
  ∧ (length (pool s) ≤ Z.to_nat (workerCount s0))%nat
  ∧ (length (in_flight (pool s)) ≤ Z.to_nat (workerCount s0))%nat.
Proof.
  intros Hwg Hs. destruct (run_pool s0 t0 Hwg s Hs) as [Hlive Hpc].
  pose proof (live_le_length (pool s)) as H1.
  pose proof (in_flight_le_live (pool s)) as H2.
  assert (length (pool s) ≤ Z.to_nat (workerCount s0))%nat as H3.
  { destruct (pc s); [lia | lia | destruct Hpc; lia]. }
  repeat split; try done; lia.
Qed.

Lemma Run_pool_bounded_witness :
  wg (sch (final (take 7 two_workers_schedule) (Run_begin two_workers 0))) =
    Z.of_nat (live (pool (final (take 7 two_workers_schedule) (Run_begin two_workers 0))))
  ∧ 0 ≤ wg (sch (final (take 7 two_workers_schedule) (Run_begin two_workers 0)))
      ≤ Z.max 0 (workerCount two_workers)
  ∧ (length (pool (final (take 7 two_workers_schedule) (Run_begin two_workers 0)))
     ≤ Z.to_nat (workerCount two_workers))%nat
  ∧ (length (in_flight (pool (final (take 7 two_workers_schedule) (Run_begin two_workers 0))))
     ≤ Z.to_nat (workerCount two_workers))%nat.
Proof.
  apply (Run_pool_bounded two_workers 0
           (final (take 7 two_workers_schedule) (Run_begin two_workers 0))).
  - vm_compute. reflexivity.
  - exists (take 7 two_workers_schedule). vm_compute. reflexivity.
Defined.



(** A run leaves alone the entries of the result map that stand under an
    identifier of none of its tasks: what a scheduler that is run again holds
    under such an identifier is what it held before. *)
Theorem results_untouched (s0 : TaskScheduler) (t0 : Z) (s : state) (id : string) :
  reachable s0 t0 s → (∀ task, task ∈ tasks s0 → GetID task ≠ id) →
  results (sch s) !! id = results s0 !! id.
Proof.
  intros Hs Hid. rewrite (run_results s0 t0 s Hs). apply apply_writes_lookup_ne.
  intros ([id' err] & -> & (w & idx & Hin)%elem_of_writes)%list_elem_of_fmap.
  destruct (proj1 (run_from_Execute s0 t0 s Hs) _ _ _ _ Hin) as (task & _ & _ & Htask & Heq & _).
  apply (Hid task); [by eapply list_elem_of_lookup_2 | done].
Qed.

Lemma results_untouched_witness :
  results (sch (final one_worker_schedule (Run_begin one_worker 0))) !! "task-9" =
    results one_worker !! "task-9".
Proof.
  apply (results_untouched one_worker 0 (final one_worker_schedule (Run_begin one_worker 0))).
  - exists one_worker_schedule. vm_compute. reflexivity.
  - intros task Htask.
    apply elem_of_cons in Htask as [->|Htask]; [discriminate|].
    apply elem_of_cons in Htask as [->|Htask]; [discriminate|].
    by apply elem_of_nil in Htask.
Defined.

Lemma recorded_nil_writes (tr : list obs) : recorded tr = [] → writes tr = [].
Proof.
  intros Hr. apply length_zero_iff_nil. by rewrite writes_recorded_length, Hr.
Qed.

(** With nothing executed, nothing is written. *)
Lemma run_nothing_executed (s0 : TaskScheduler) (t0 : Z) (s : state) :
  reachable s0 t0 s → executed (trace s) = [] → results (sch s) = results s0.
Proof.
  intros Hs Hex. destruct (run_executed s0 t0 s Hs) as [_ Hperm].
  rewrite Hex in Hperm. apply Permutation_nil_l in Hperm. symmetry in Hperm.
  apply app_eq_nil in Hperm as [Hrec _].
  by rewrite (run_results s0 t0 s Hs), (recorded_nil_writes _ Hrec).
Qed.

(** [Run] on a scheduler to which no task was added returns, whatever the
    number of workers: each worker finds the channel closed and empty and
    returns, nothing is received or executed, and the result map is returned
    as it was. *)
Theorem Run_without_tasks (s0 : TaskScheduler) (t0 : Z) :
  tasks s0 = [] → wg s0 = 0 →
  (∀ p, ∃ s', Run p s0 t0 = Some s' ∧ reachable s0 t0 s' ∧ pc s' = Returned)
  ∧ ∀ s', reachable s0 t0 s' →
      taskChan s' = [] ∧ dequeued (trace s') = [] ∧ executed (trace s') = []
      ∧ results (sch s') = results s0.
Proof.
  intros Hts Hwg. split; [intros p; apply (Run_returns s0 t0 Hwg p)|].
  intros s' Hs'. destruct (run_queue s0 t0 s' Hs') as (n & Hq & Hd & Hn).
  rewrite Hts in Hn, Hq. simpl in Hn. assert (n = O) as -> by lia.
  destruct (executed_received s0 t0 s' Hs') as (_ & _ & Hsub).
  rewrite Hd in Hsub. apply submseteq_nil_r in Hsub.
  repeat split; try done. by apply (run_nothing_executed s0 t0).
Qed.

Lemma Run_without_tasks_witness :
  (∀ p, ∃ s', Run p idle 0 = Some s' ∧ reachable idle 0 s' ∧ pc s' = Returned)
  ∧ ∀ s', reachable idle 0 s' →
      taskChan s' = [] ∧ dequeued (trace s') = [] ∧ executed (trace s') = []
      ∧ results (sch s') = results idle.
Proof.
  apply (Run_without_tasks idle 0); reflexivity.
Defined.

(** [Run] on a scheduler whose budget is zero or negative executes nothing:
    the context of the run is done from the start, every worker returns at its
    first look at it, and the result map is returned as it was.  A worker is
    at the head of its loop, at its [select] with the task it has received, or
    has returned: none is ever inside [Execute]. *)
Theorem Run_without_budget (s0 : TaskScheduler) (t0 : Z) (s : state) :
  timeout s0 ≤ 0 → reachable s0 t0 s →
  executed (trace s) = [] ∧ recorded (trace s) = [] ∧ results (sch s) = results s0
  ∧ ∀ w g, pool s !! w = Some g →
      g = AtRange ∨ (∃ idx task, g = AtSelect idx task) ∨ g = Exited.
Proof.
  intros Hto Hs. destruct Hs as [es Hes].
  assert (reachable s0 t0 s) as Hs by (by exists es).
  assert (executed (trace s) = []) as Hex.
  { apply (exec_after_deadline es (Run_begin s0 t0) s); [|done].
    simpl. rewrite WithTimeout_Done. simpl. apply Z.leb_le. lia. }
  destruct (run_executed s0 t0 s Hs) as [_ Hperm].
  rewrite Hex in Hperm. apply Permutation_nil_l in Hperm. symmetry in Hperm.
  apply app_eq_nil in Hperm as [Hrec Hfl].
  repeat split; try done; [by apply (run_nothing_executed s0 t0)|].
  intros w g Hw.
  destruct g as [|idx task|idx task err ret|]; [by left | right; left; eauto | | by right; right].
  assert (idx ∈ in_flight (pool s)) as Hin; [|rewrite Hfl in Hin; by apply elem_of_nil in Hin].
  apply list_elem_of_omap. exists (InExecute idx task err ret).
  split; [by eapply list_elem_of_lookup_2 | done].
Qed.

Lemma Run_without_budget_witness :
  executed (trace (final [Main; Main; Worker 0 first; Worker 0 first; Main]
                     (Run_begin (submit (NewTaskScheduler 1 0) two_tasks) 0))) = []
  ∧ recorded (trace (final [Main; Main; Worker 0 first; Worker 0 first; Main]
                       (Run_begin (submit (NewTaskScheduler 1 0) two_tasks) 0))) = []
  ∧ results (sch (final [Main; Main; Worker 0 first; Worker 0 first; Main]
                    (Run_begin (submit (NewTaskScheduler 1 0) two_tasks) 0))) =
      results (submit (NewTaskScheduler 1 0) two_tasks)
  ∧ ∀ w g, pool (final [Main; Main; Worker 0 first; Worker 0 first; Main]
                   (Run_begin (submit (NewTaskScheduler 1 0) two_tasks) 0)) !! w = Some g →
           g = AtRange ∨ (∃ idx task, g = AtSelect idx task) ∨ g = Exited.
Proof.
  apply (Run_without_budget (submit (NewTaskScheduler 1 0) two_tasks) 0
           (final [Main; Main; Worker 0 first; Worker 0 first; Main]
              (Run_begin (submit (NewTaskScheduler 1 0) two_tasks) 0))).
  - vm_compute. discriminate.
  - exists [Main; Main; Worker 0 first; Worker 0 first; Main]. vm_compute. reflexivity.
Defined.

Lemma held_le_live (gs : list goroutine) : (length (held gs) ≤ live gs)%nat.
Proof. induction gs as [|[] gs IH]; simpl; lia. Qed.

(** Each task received and not executed is held by a worker at its [select]
    or has cost the run a worker: the tasks received are no more than those
    executed, those held and the workers that have returned. *)
Lemma run_late (s0 : TaskScheduler) (t0 : Z) (s : state) :
  reachable s0 t0 s →
  (length (dequeued (trace s)) + live (pool s)
   ≤ length (executed (trace s)) + length (held (pool s)) + length (pool s))%nat.
Proof.
  revert s. apply run_ind; [simpl; lia|].
  intros e s s' _ IH Hstep.
  destruct Hstep as [| | |w o s Hw _|w o s idx task rest Hw _
                     |w o s idx task Hw _|w o s idx task Hw _
                     |w o s idx task err ret Hw _|];
    simpl; rewrite ?dequeued_app, ?executed_app, ?length_app, ?length_insert; simpl;
    try lia.
  1: { rewrite live_app, held_app, length_app. simpl. lia. }
  all: match goal with
       | H : pool _ !! _ = Some ?g |- context [<[_ := ?g']> (pool _)] =>
           pose proof (live_insert _ _ _ g' H) as Hl;
           pose proof (Permutation_length (held_insert _ _ _ g' H)) as Hh;
           rewrite !length_app in Hh; simpl in Hl, Hh; lia
       end.
Qed.

(** The tasks lost off the channel are at most one for each worker: however
    many tasks are left when the context of the run is done, no more than
    [workerCount] of them are received and dropped, the others staying in the
    channel. *)
Theorem Run_drops_one_task_per_worker (s0 : TaskScheduler) (t0 : Z) (s : state) :
  wg s0 = 0 → reachable s0 t0 s →
  (length (dequeued_when true (ctx s) (trace s)) ≤ Z.to_nat (workerCount s0))%nat
  ∧ (length (tasks s0)
     ≤ length (taskChan s) + length (executed (trace s)) + Z.to_nat (workerCount s0))%nat.
Proof.
  intros Hwg Hs. pose proof (run_late s0 t0 s Hs) as Hlate.
  pose proof (held_le_live (pool s)) as Hheld.
  destruct (run_pool s0 t0 Hwg s Hs) as [_ Hpc].
  assert (length (pool s) ≤ Z.to_nat (workerCount s0))%nat as Hlen.
  { destruct (pc s); [lia | lia | destruct Hpc; lia]. }
  destruct (run_queue s0 t0 s Hs) as (n & Hq & Hd & Hn).
  assert (length (dequeued (trace s)) =
          (length (dequeued_when false (ctx s) (trace s))
           + length (dequeued_when true (ctx s) (trace s)))%nat) as Hsplit.
  { clear. induction (trace s) as [|[w idx at_| | | |] tr IH]; simpl; try done.
    destruct (context.Done (ctx s) at_); simpl; lia. }
  assert (length (executed (trace s))
          ≤ length (dequeued_when false (ctx s) (trace s)))%nat as Hex.
  { apply submseteq_length, NoDup_submseteq.
    - by destruct (executed_received s0 t0 s Hs) as (_ & ? & _).
    - intros idx [w Hin]%elem_of_executed.
      destruct (run_execute_by_receiver s0 t0 s Hs w idx Hin) as (at_ & ? & ?).
      apply elem_of_dequeued_when. eauto. }
  split; [lia|].
  rewrite Hd, length_seq in Hlate. rewrite Hq, length_drop, queue_length. lia.
Qed.

Lemma Run_drops_one_task_per_worker_witness :
  (length (dequeued_when true
             (ctx (final [Worker 0 first; Worker 0 first; Main] after_deadline))
             (trace (final [Worker 0 first; Worker 0 first; Main] after_deadline)))
   ≤ Z.to_nat (workerCount short_budget))%nat
  ∧ (length (tasks short_budget)
     ≤ length (taskChan (final [Worker 0 first; Worker 0 first; Main] after_deadline))
       + length (executed (trace (final [Worker 0 first; Worker 0 first; Main]
                                    after_deadline)))
       + Z.to_nat (workerCount short_budget))%nat.
Proof.
  apply (Run_drops_one_task_per_worker short_budget 0
           (final [Worker 0 first; Worker 0 first; Main] after_deadline)).
  - vm_compute. reflexivity.
  - exists (short_budget_schedule ++ [Worker 0 first; Worker 0 first; Main]).
    vm_compute. reflexivity.
Defined.

(** When [Run] returns, the tasks that have had a result written are those
    on which [Execute] was called, each once, and each of them had been
    received while the context of the run was not done; a task received when
    the context was done, a task received and dropped at the [select], or a
    task left in the channel has none. *)
Theorem Run_records_what_was_executed (s0 : TaskScheduler) (t0 : Z) (s : state) :
  wg s0 = 0 → reachable s0 t0 s → pc s = Returned →
  recorded (trace s) ≡ₚ executed (trace s)
  ∧ NoDup (recorded (trace s))
  ∧ (∀ idx, idx ∈ recorded (trace s) → idx ∈ dequeued_when false (ctx s) (trace s))
  ∧ (∀ idx, idx ∈ dequeued_when true (ctx s) (trace s) → idx ∉ recorded (trace s))
  ∧ (∀ idx, idx ∉ executed (trace s) → idx ∉ recorded (trace s))
  ∧ (∀ idx task, (idx, task) ∈ taskChan s → idx ∉ recorded (trace s)).
Proof.
  intros Hwg Hs Hret.
  destruct (run_pool s0 t0 Hwg s Hs) as [_ Hpc]. rewrite Hret in Hpc.
  destruct (run_executed s0 t0 s Hs) as [_ Hperm].
  rewrite (in_flight_live_0 _ (proj2 Hpc)), app_nil_r in Hperm.
  destruct (executed_received s0 t0 s Hs) as (Hnd & Hne & Hsub).
  destruct (run_queue s0 t0 s Hs) as (n & Hq & Hd & _).
  assert (∀ idx, idx ∈ recorded (trace s) →
            ∃ w at_, ODequeue w idx at_ ∈ trace s ∧ context.Done (ctx s) at_ = false)
    as Hrec.
  { intros idx Hin. rewrite <- Hperm in Hin. apply elem_of_executed in Hin as [w Hin].
    destruct (run_execute_by_receiver s0 t0 s Hs w idx Hin) as (at_ & ? & ?). eauto. }
  split; [done|]. split; [by rewrite <- Hperm|]. split; [|split; [|split]].
  - intros idx Hin. apply elem_of_dequeued_when. by apply Hrec.
  - intros idx (w & at_ & Hin & HD)%elem_of_dequeued_when Hin'.
    destruct (Hrec idx Hin') as (w' & at' & Hin'' & HD').
    pose proof (omap_NoDup_inj _ _ _ _ idx Hnd Hin Hin'' eq_refl eq_refl) as [= -> ->].
    congruence.
  - intros idx Hnot Hin. apply Hnot. by rewrite Hperm.
  - intros idx task Hin Hin'. rewrite Hq in Hin. apply queue_drop_elem in Hin as [Hge _].
    destruct (Hrec idx Hin') as (w & at_ & Hd' & _).
    assert (idx ∈ dequeued (trace s)) as Hin'' by (apply elem_of_dequeued; eauto).
    rewrite Hd in Hin''. apply elem_of_seq in Hin''. lia.
Qed.

Lemma Run_records_what_was_executed_witness :
  recorded (trace (final [Worker 0 first; Worker 0 first; Main] after_deadline))
    ≡ₚ executed (trace (final [Worker 0 first; Worker 0 first; Main] after_deadline))
  ∧ NoDup (recorded (trace (final [Worker 0 first; Worker 0 first; Main] after_deadline)))
  ∧ (∀ idx,
       idx ∈ recorded (trace (final [Worker 0 first; Worker 0 first; Main] after_deadline)) →
       idx ∈ dequeued_when false
               (ctx (final [Worker 0 first; Worker 0 first; Main] after_deadline))
               (trace (final [Worker 0 first; Worker 0 first; Main] after_deadline)))
  ∧ (∀ idx,
       idx ∈ dequeued_when true
               (ctx (final [Worker 0 first; Worker 0 first; Main] after_deadline))
               (trace (final [Worker 0 first; Worker 0 first; Main] after_deadline)) →
       idx ∉ recorded (trace (final [Worker 0 first; Worker 0 first; Main] after_deadline)))
  ∧ (∀ idx,
       idx ∉ executed (trace (final [Worker 0 first; Worker 0 first; Main] after_deadline)) →
       idx ∉ recorded (trace (final [Worker 0 first; Worker 0 first; Main] after_deadline)))
  ∧ (∀ idx task,
       (idx, task) ∈ taskChan (final [Worker 0 first; Worker 0 first; Main] after_deadline) →
       idx ∉ recorded (trace (final [Worker 0 first; Worker 0 first; Main] after_deadline))).
Proof.
  apply (Run_records_what_was_executed short_budget 0
           (final [Worker 0 first; Worker 0 first; Main] after_deadline)).
  - vm_compute. reflexivity.
  - exists (short_budget_schedule ++ [Worker 0 first; Worker 0 first; Main]).
    vm_compute. reflexivity.
  - vm_compute. reflexivity.
Defined.




(** * [AddTask] and [main] *)

(** [AddTask] puts a task at the end of the task list and touches nothing
    else: after a batch of calls the list is the old one followed by the
    batch, in the order of the calls, equal tasks and equal identifiers
    included, so that [Run] will hand the new tasks out after the old ones;
    the worker count, the budget and the result map are as they were. *)
Theorem AddTask_appends (s : TaskScheduler) (batch : list Task) :
  tasks (submit s batch) = tasks s ++ batch
  ∧ queue (tasks (submit s batch)) =
      queue (tasks s) ++ imap (λ idx task, (length (tasks s) + idx, task)%nat) batch
  ∧ wg (submit s batch) = wg s
  ∧ results (submit s batch) = results s
  ∧ timeout (submit s batch) = timeout s
  ∧ workerCount (submit s batch) = workerCount s.
Proof.
  destruct (submit_fields s batch) as (Hts & Hwg & Hres & Hto & Hwc).
  repeat split; try done. rewrite Hts. unfold queue. by rewrite imap_app.
Qed.

Lemma main_scheduler_submit :
  main_scheduler =
    submit (NewTaskScheduler 3 (4 * time.Second))
      [Simple (NewSimpleTask "task-1" (2 * time.Second));
       LongRunning (NewLongRunningTask "long-task-1" 50 (5 * time.Second));
       LongRunning (NewLongRunningTask "long-task-1" 40 (4 * time.Second));
       LongRunning (NewLongRunningTask "long-task-2" 20 (1 * time.Second));
       Simple (NewSimpleTask "task-3" (500 * time.Millisecond))].
Proof. reflexivity. Qed.




(** * The workers return once *)

(** The workers whose return is in the trace are those that have returned,
    each of them once. *)
Lemma run_exited (s0 : TaskScheduler) (t0 : Z) (s : state) :
  reachable s0 t0 s →
  NoDup (exited (trace s)) ∧ ∀ w, w ∈ exited (trace s) → pool s !! w = Some Exited.
Proof.
  revert s. apply run_ind; [split; [constructor | by intros w Hin; apply elem_of_nil in Hin]|].
  intros e s s' _ (Hnd & Hin) Hstep.
  assert (∀ w g, pool s !! w = Some g → g ≠ Exited → w ∉ exited (trace s)) as Hbusy.
  { intros w g Hw Hg Hw'. apply Hin in Hw'. congruence. }
  assert (∀ w w' g g', pool s !! w = Some g → g ≠ Exited → w' ∈ exited (trace s) →
            <[w := g']> (pool s) !! w' = Some Exited) as Hother.
  { intros w w' g g' Hw Hg Hw'. rewrite list_lookup_insert_ne; [by apply Hin|].
    intros ->. by apply (Hbusy w' g). }
  destruct Hstep as [| | |w o s Hw _|w o s idx task rest Hw _
                     |w o s idx task Hw _|w o s idx task Hw _
                     |w o s idx task err ret Hw _|];
    simpl; rewrite ?exited_app; simpl; rewrite ?app_nil_r; try done.
  - split; [done|]. intros w Hw. by apply lookup_app_l_Some, Hin.
  - split.
    + apply NoDup_app. split; [done|]. split; [|apply NoDup_singleton].
      intros w' Hw' Hx%list_elem_of_singleton. subst w'. by apply (Hbusy w AtRange).
    + intros w' [Hw'|Hx%list_elem_of_singleton]%elem_of_app.
      * by apply (Hother w w' AtRange).
      * subst w'. apply list_lookup_insert_eq. by eapply lookup_lt_Some.
  - split; [done|]. intros w' Hw'. by apply (Hother w w' AtRange).
  - split.
    + apply NoDup_app. split; [done|]. split; [|apply NoDup_singleton].
      intros w' Hw' Hx%list_elem_of_singleton. subst w'.
      by apply (Hbusy w (AtSelect idx task)).
    + intros w' [Hw'|Hx%list_elem_of_singleton]%elem_of_app.
      * by apply (Hother w w' (AtSelect idx task)).
      * subst w'. apply list_lookup_insert_eq. by eapply lookup_lt_Some.
  - split; [done|]. intros w' Hw'. by apply (Hother w w' (AtSelect idx task)).
  - split; [done|]. intros w' Hw'. by apply (Hother w w' (InExecute idx task err ret)).
Qed.

(** Every worker that is started returns exactly once, so that [wg.Done()]
    is called once for each [wg.Add(1)]: no worker's return is twice in the
    trace, and when [Run] has returned the workers that have returned are the
    workers [0] to [workerCount - 1]. *)
Theorem Run_workers_return_once (s0 : TaskScheduler) (t0 : Z) (s : state) :
  wg s0 = 0 → reachable s0 t0 s →
  NoDup (exited (trace s))
  ∧ (∀ w, w ∈ exited (trace s) → (w < Z.to_nat (workerCount s0))%nat)
  ∧ (pc s = Returned → exited (trace s) ≡ₚ seq 0 (Z.to_nat (workerCount s0))).
Proof.
  intros Hwg Hs. destruct (run_exited s0 t0 s Hs) as [Hnd Hin].
  pose proof (pool_length_bound s0 t0 s Hwg Hs) as Hlen.
  split; [done|]. split.
  - intros w Hw%Hin%lookup_lt_Some. lia.
  - intros Hret. destruct (run_pool s0 t0 Hwg s Hs) as [_ Hpc]. rewrite Hret in Hpc.
    destruct Hpc as [Hlen' H0].
    apply NoDup_Permutation; [done | apply NoDup_seq|].
    intros w. rewrite elem_of_seq. split.
    + intros Hw%Hin%lookup_lt_Some. lia.
    + intros [_ Hw]. simpl in Hw. rewrite <- Hlen' in Hw.
      destruct (lookup_lt_is_Some_2 _ _ Hw) as [g Hg].
      apply (proj1 (run_exits s0 t0 Hwg s Hs)).
      by rewrite <- (live_0 _ _ _ H0 Hg).
Qed.

Lemma Run_workers_return_once_witness :
  NoDup (exited (trace (final two_workers_schedule (Run_begin two_workers 0))))
  ∧ (∀ w, w ∈ exited (trace (final two_workers_schedule (Run_begin two_workers 0))) →
          (w < Z.to_nat (workerCount two_workers))%nat)
  ∧ (pc (final two_workers_schedule (Run_begin two_workers 0)) = Returned →
     exited (trace (final two_workers_schedule (Run_begin two_workers 0)))
       ≡ₚ seq 0 (Z.to_nat (workerCount two_workers))).
Proof.
  apply (Run_workers_return_once two_workers 0
           (final two_workers_schedule (Run_begin two_workers 0))).
  - vm_compute. reflexivity.
  - exists two_workers_schedule. vm_compute. reflexivity.
Defined.

(** * Runs in which no worker is late *)

Lemma dequeued_when_sublist (late : bool) (c : context.Context) (tr : list obs) :
  dequeued_when late c tr `sublist_of` dequeued tr.
Proof.
  induction tr as [|o tr IH]; [done|].
  destruct o as [w idx at_| | | |]; simpl; try done.
  case_bool_decide; [by apply sublist_skip | by apply sublist_cons].
Qed.

(** A step of a goroutine keeps the workers on time, and keeps the tasks
    received in time executed or held. *)
Lemma transition_on_time (s0 : TaskScheduler) (t0 : Z) (e : event) (s s' : state) :
  reachable s0 t0 s → transition e s s' → (∀ d, e ≠ Tick d) →
  on_time s ∧ in_time_kept s → on_time s' ∧ in_time_kept s'.
Proof.
  intros Hs Hstep Hnotick [Hot Hkept].
  destruct (executed_received s0 t0 s Hs) as (Hnd & _ & _).
  assert (∀ w0 g' o,
            (∀ idx task, g' = AtSelect idx task → o = ODequeue w0 idx (now s)) →
            ∀ w idx task, <[w0 := g']> (pool s) !! w = Some (AtSelect idx task) →
              ODequeue w idx (now s) ∈ trace s ++ [o]) as Hot'.
  { intros w0 g' o Hg w idx task [(<- & -> & _)|[_ Hl]]%list_lookup_insert_Some.
    - rewrite (Hg _ _ eq_refl). apply elem_of_app. right. by left.
    - apply elem_of_app. left. by eapply Hot. }
  assert (∀ w0 g g' o, pool s !! w0 = Some g →
            (∀ w idx at_, o = ODequeue w idx at_ →
               w = w0 ∧ ∃ task, g' = AtSelect idx task) →
            (∀ idx task, g = AtSelect idx task →
               o = OExecute w0 idx ∨ context.Done (ctx s) (now s) = true) →
            ∀ w idx at_, ODequeue w idx at_ ∈ trace s ++ [o] →
              context.Done (ctx s) at_ = false →
              (∃ w', OExecute w' idx ∈ trace s ++ [o])
              ∨ (∃ task, <[w0 := g']> (pool s) !! w = Some (AtSelect idx task))) as Hkept'.
  { intros w0 g g' o Hw0 Hnew Hold w idx at_ [Hin|Hin%list_elem_of_singleton]%elem_of_app HD.
    - destruct (Hkept w idx at_ Hin HD) as [[w' Hex]|[task Hw]].
      { left. exists w'. apply elem_of_app. by left. }
      destruct (decide (w0 = w)) as [->|Hne];
        [|right; exists task; by rewrite list_lookup_insert_ne].
      rewrite Hw0 in Hw. injection Hw as ->.
      destruct (Hold idx task eq_refl) as [->|HD'].
      + left. exists w. apply elem_of_app. right. by left.
      + pose proof (Hot w idx task Hw0) as Hin'.
        pose proof (omap_NoDup_inj _ _ _ _ idx Hnd Hin Hin' eq_refl eq_refl) as [= ->].
        congruence.
    - destruct (Hnew w idx at_) as [-> [task ->]]; [done|].
      right. exists task. apply list_lookup_insert_eq. by eapply lookup_lt_Some. }
  destruct Hstep as [s i Hi Hlt|s i Hi Hge|s Hi Hz|w o s Hw _|w o s idx task rest Hw _
                     |w o s idx task Hw HD|w o s idx task Hw HD
                     |w o s idx task err ret Hw _|d s Hd];
    unfold on_time, in_time_kept; simpl.
  - split.
    + intros w idx task [[_ Hl]|[_ [=]]]%lookup_snoc_Some. by eapply Hot.
    + intros w idx at_ Hin HD. destruct (Hkept w idx at_ Hin HD) as [?|[task Hw]]; [by left|].
      right. exists task. by apply lookup_app_l_Some.
  - done.
  - split.
    + intros w idx task Hw. apply elem_of_app. left. by eapply Hot.
    + intros w idx at_ [Hin|Hin%list_elem_of_singleton]%elem_of_app HD; [|done].
      destruct (Hkept w idx at_ Hin HD) as [[w' Hex]|?]; [|by right].
      left. exists w'. apply elem_of_app. by left.
  - split; [by apply Hot' | by apply (Hkept' w AtRange)].
  - split; [apply Hot'; by intros ?? [= <- _] |].
    apply (Hkept' w AtRange); [done | | done].
    intros w' idx' at_ [= <- <- _]. eauto.
  - split; [by apply Hot' |].
    apply (Hkept' w (AtSelect idx task)); [done | done |]. intros; by right.
  - split; [by apply Hot' |].
    apply (Hkept' w (AtSelect idx task)); [done | done |].
    intros idx' task' [= <- _]. by left.
  - split; [by apply Hot' | by apply (Hkept' w (InExecute idx task err ret))].
  - by destruct (Hnotick d).
Qed.

(** Time that passes while every worker left waits for an [Execute] to
    return finds no worker at its [select]. *)
Lemma tick_on_time (d : Z) (s : state) :
  all_blocked (now s) (pool s) → in_time_kept s →
  on_time (advance d s) ∧ in_time_kept (advance d s).
Proof.
  intros Hblocked Hkept. unfold on_time, in_time_kept. simpl. split.
  - intros w idx task Hw. by destruct (Hblocked w _ Hw).
  - intros w idx at_ Hin HD. destruct (Hkept w idx at_ Hin HD) as [?|[task Hw]]; [by left|].
    by destruct (Hblocked w _ Hw).
Qed.

(** A step the policy makes is a step of a goroutine, or the passing of time
    while every worker left waits for an [Execute] to return. *)
Lemma next_cases (p : policy) (k : nat) (s s' : state) :
  next p k s = Some s' →
  (∃ e, transition e s s' ∧ ∀ d, e ≠ Tick d)
  ∨ (all_blocked (now s) (pool s) ∧ ∃ d, s' = advance d s).
Proof.
  unfold next. destruct (attempt _ s (choose p k)) as [s1|] eqn:E1.
  - intros [= <-]. left. by eapply attempt_transition.
  - destruct (first_enabled _ s _) as [s1|] eqn:E2.
    + intros [= <-]. apply first_enabled_Some in E2 as (c & _ & Ha).
      left. by eapply attempt_transition.
    + apply nobody_enabled in E2 as [_ Hblocked].
      destruct (next_return (pool s)) as [r|]; simpl; [|done].
      unfold tick. destruct (0 <? r - now s); [|done].
      intros [= <-]. right. eauto.
Qed.

(** In the runs the policy drives, the workers are on time. *)
Lemma drive_on_time (s0 : TaskScheduler) (t0 : Z) (p : policy) (fuel k : nat) (s s' : state) :
  reachable s0 t0 s → on_time s ∧ in_time_kept s → drive p fuel k s = Some s' →
  reachable s0 t0 s' ∧ pc s' = Returned ∧ on_time s' ∧ in_time_kept s'.
Proof.
  revert k s. induction fuel as [|fuel IH]; intros k s Hs HP Hd; simpl in Hd.
  - destruct (pc s) eqn:Hpc; [done | done |]. injection Hd as <-. by destruct HP.
  - destruct (pc s) eqn:Hpc; [| |injection Hd as <-; by destruct HP].
    + destruct (next p k s) as [s1|] eqn:Hn; simpl in Hd; [|done].
      destruct (next_step _ _ _ _ Hn) as [e He].
      apply (IH (S k) s1); [by eapply reachable_step | | done].
      destruct (next_cases _ _ _ _ Hn) as [(e' & He' & Hne)|(Hb & d & ->)];
        [by eapply transition_on_time | apply tick_on_time; [done | by destruct HP]].
    + destruct (next p k s) as [s1|] eqn:Hn; simpl in Hd; [|done].
      destruct (next_step _ _ _ _ Hn) as [e He].
      apply (IH (S k) s1); [by eapply reachable_step | | done].
      destruct (next_cases _ _ _ _ Hn) as [(e' & He' & Hne)|(Hb & d & ->)];
        [by eapply transition_on_time | apply tick_on_time; [done | by destruct HP]].
Qed.

(** When no worker is late, to be received in time is enough.  In a run in
    which the goroutines go whenever they can, time passing only while every
    worker left waits for an [Execute] to return, a worker that receives a
    task while the context of the run is not done finds it not done at its
    [select]: when [Run] returns, the tasks that have had a result written are
    those received while the context was not done; and if that is every task
    of a batch with pairwise distinct identifiers, the map, empty at the
    start, has one entry for each. *)
Theorem Run_on_time_complete (s0 : TaskScheduler) (t0 : Z) (p : policy) (s' : state) :
  wg s0 = 0 → Run p s0 t0 = Some s' →
  reachable s0 t0 s' ∧ pc s' = Returned
  ∧ recorded (trace s') ≡ₚ dequeued_when false (ctx s') (trace s')
  ∧ (NoDup (GetID <$> tasks s0) → results s0 = ∅ →
     (∀ idx : nat, (idx < length (tasks s0))%nat →
        ∃ w at_, ODequeue w idx at_ ∈ trace s' ∧ context.Done (ctx s') at_ = false) →
     size (results (sch s')) = length (tasks s0)
     ∧ dom (results (sch s')) = list_to_set (GetID <$> tasks s0)).
Proof.
  intros Hwg Hrun.
  destruct (drive_on_time s0 t0 p _ _ _ _ (reachable_begin s0 t0)
              ltac:(split; [by intros ??? | by intros ??? ?%elem_of_nil]) Hrun)
    as (Hs' & Hpc & _ & Hkept).
  destruct (run_pool s0 t0 Hwg s' Hs') as [_ Hlive]. rewrite Hpc in Hlive.
  destruct (run_executed s0 t0 s' Hs') as [_ Hperm].
  rewrite (in_flight_live_0 _ (proj2 Hlive)), app_nil_r in Hperm.
  assert (∀ w idx at_, ODequeue w idx at_ ∈ trace s' →
            context.Done (ctx s') at_ = false → ∃ w', OExecute w' idx ∈ trace s') as Hall.
  { intros w idx at_ Hin HD. destruct (Hkept w idx at_ Hin HD) as [?|[task Hw]]; [done|].
    by pose proof (live_0 _ _ _ (proj2 Hlive) Hw). }
  split; [done|]. split; [done|]. split.
  - apply NoDup_Permutation.
    + by apply (recorded_NoDup s0 t0).
    + destruct (executed_received s0 t0 s' Hs') as (Hnd & _ & _).
      apply (sublist_NoDup _ _ Hnd), dequeued_when_sublist.
    + intros idx. rewrite <- Hperm, elem_of_executed, elem_of_dequeued_when. split.
      * intros [w Hin].
        destruct (run_execute_by_receiver s0 t0 s' Hs' w idx Hin) as (at_ & ? & ?). eauto.
      * intros (w & at_ & Hin & HD). by eapply Hall.
  - intros Hnodup Hres Hevery.
    destruct (returned_complete s0 t0 s' Hwg Hres Hnodup Hs' Hpc) as (Hsize & Hdom & _);
      [|done].
    intros idx Hidx. destruct (Hevery idx Hidx) as (w & at_ & Hin & HD). by eapply Hall.
Qed.

Lemma Run_on_time_complete_witness :
  reachable one_worker 0 (final one_worker_schedule (Run_begin one_worker 0))
  ∧ pc (final one_worker_schedule (Run_begin one_worker 0)) = Returned
  ∧ recorded (trace (final one_worker_schedule (Run_begin one_worker 0)))
      ≡ₚ dequeued_when false (ctx (final one_worker_schedule (Run_begin one_worker 0)))
           (trace (final one_worker_schedule (Run_begin one_worker 0)))
  ∧ (NoDup (GetID <$> tasks one_worker) → results one_worker = ∅ →
     (∀ idx : nat, (idx < length (tasks one_worker))%nat →
        ∃ w at_, ODequeue w idx at_ ∈ trace (final one_worker_schedule (Run_begin one_worker 0))
                 ∧ context.Done (ctx (final one_worker_schedule (Run_begin one_worker 0)))
                     at_ = false) →
     size (results (sch (final one_worker_schedule (Run_begin one_worker 0)))) =
       length (tasks one_worker)
     ∧ dom (results (sch (final one_worker_schedule (Run_begin one_worker 0)))) =
         list_to_set (GetID <$> tasks one_worker)).
Proof.
  apply (Run_on_time_complete one_worker 0 in_order
           (final one_worker_schedule (Run_begin one_worker 0))).
  - reflexivity.
  - vm_compute. reflexivity.
Defined.
